(** * AURA emergency console: the glue logic of [src/App.tsx]

    A shallow embedding of the status store, the JSON extractor, the status
    applier, the countdown timer and the chat session controller of the
    single React component [App], followed by the properties the written
    specification states about them. Narration, the text a message is
    shown with and the clock are embedded as well, with further properties
    of the code.

    Conventions of the embedding.
    - JavaScript strings are [string]: a character is a UTF-16 code unit,
      and the texts covered are those of code units below 256.
    - [toUpperCase] is a platform function, the member of the class
      [JSString]: its result depends on the Unicode tables of the engine
      and may leave the range (it maps U+00FF to U+0178). No property uses
      more of it than its hypotheses say.
    - A JavaScript value coming out of [JSON.parse] is a [value]; numbers are
      an abstract type with the two platform operations the component uses
      on them ([Boolean(n)] and [String(n)]).
    - [JSON.parse] and [JSON.stringify] are platform functions: members of
      the class [JSONCodec].
    - A React state setter is a state transformer on the record [App]; a
      callback handed to [setSystemStatuses] is a queued call that [flush]
      runs in order.
    - An updater handed to a state setter runs once.
    - An exception is an explicit outcome ([Thrown], [None]).
    - [\s] in a regular expression is the white space of [trim]: among the
      code units below 256 these are tab, line feed, vertical tab, form
      feed, carriage return, space and the no-break space U+00A0.
    - The seconds of the clock are whole numbers; the rate, the pitch and
      the volume of an utterance are rationals. *)

From Stdlib Require Import ZArith Ascii String List Lia DecimalString.
From Stdlib Require QArith DecimalZ DecimalPos.
From stdpp Require Import base option list strings gmap fin_maps.

(* ===================================================================== *)
(** ** Text *)
(* ===================================================================== *)

Module Text.

(** The line feed, written [\n] in the source. *)
Definition LF : string := String (ascii_of_nat 10) "".

(** [strip_prefix p s] is [Some r] when [s = p +:+ r]: the literal [p]
    matches at the start of [s] and [r] is what follows. *)
Fixpoint strip_prefix (p s : string) : option string :=
  match p with
  | "" => Some s
  | String a p' =>
      match s with
      | "" => None
      | String b s' => if decide (a = b) then strip_prefix p' s' else None
      end
  end.

(** [s.includes(needle)]. *)
Fixpoint includes (s needle : string) : bool :=
  match strip_prefix needle s with
  | Some _ => true
  | None => match s with
            | "" => false
            | String _ s' => includes s' needle
            end
  end.

(** White space as [trim] and [\s] see it, that is the white space and the
    line terminators of the language: among the code units below 256 these
    are tab, line feed, vertical tab, form feed, carriage return (9 to 13),
    space (32) and the no-break space U+00A0 (160). *)
Definition is_space (c : ascii) : bool :=
  let n := nat_of_ascii c in
  ((9 <=? n)%nat && (n <=? 13)%nat) || (n =? 32)%nat || (n =? 160)%nat.

Fixpoint trimStart (s : string) : string :=
  match s with
  | "" => ""
  | String c s' => if is_space c then trimStart s' else s
  end.

(** [trimEnd] keeps a character when it, or anything after it, is not
    white space. *)
Fixpoint trimEnd (s : string) : string :=
  match s with
  | "" => ""
  | String c s' =>
      match trimEnd s' with
      | "" => if is_space c then "" else String c ""
      | r => String c r
      end
  end.

(** [s.trim()]. *)
Definition trim (s : string) : string := trimEnd (trimStart s).

(** ** The regular expression of the extractor

    [/```json\n([\s\S]*?)\n```/]: the literal opening fence, a lazy run of
    arbitrary characters (the capture group), the literal closing fence. *)

Definition fence_open : string := "```json" +:+ LF.
Definition fence_close : string := LF +:+ "```".

(** The lazy group [([\s\S]*?)] followed by the literal [close]: the matcher
    first tries [close] where it stands, and only when that fails consumes
    one more character into the group. *)
Fixpoint lazy_until (close s : string) : option string :=
  match strip_prefix close s with
  | Some _ => Some ""
  | None => match s with
            | "" => None
            | String c s' => option_map (String c) (lazy_until close s')
            end
  end.

(** The whole expression anchored at the start of [s]: the capture group. *)
Definition match_here (s : string) : option string :=
  match strip_prefix fence_open s with
  | Some rest => lazy_until fence_close rest
  | None => None
  end.

(** [text.match(re)] without the [g] flag: the start positions are tried
    from the left and the first one where the expression matches wins. The
    result is capture group 1 of that match, [None] for a [null] match. *)
Fixpoint regex_match (s : string) : option string :=
  match match_here s with
  | Some g => Some g
  | None => match s with
            | "" => None
            | String _ s' => regex_match s'
            end
  end.

End Text.

Import Text.

(* ===================================================================== *)
(** ** JavaScript values *)
(* ===================================================================== *)

(** JavaScript numbers (IEEE doubles) with the two operations the component
    applies to them: [number_truthy n] is [Boolean(n)] (false for [0], [-0]
    and [NaN]) and [number_toString n] is [String(n)]. *)
Class JSNumber := {
  number : Type;
  number_truthy : number -> bool;
  number_toString : number -> string }.

(** What [JSON.parse] returns, and [undefined], which a property read of a
    missing key yields. An object lists its own properties in the order
    [Object.values] enumerates them. *)
#[warnings="-register-all"]
Inductive value `{JSNumber} : Type :=
| VUndefined
| VNull
| VBool (b : bool)
| VNumber (n : number)
| VString (s : string)
| VArray (elements : list value)
| VObject (fields : list (string * value)).

(** [JSON.parse] ([None]: it throws a SyntaxError) and [JSON.stringify] on
    the object that holds the status map. *)
Class JSONCodec `{JSNumber} := {
  JSON_parse : string -> option value;
  JSON_stringify : gmap string value -> string }.

(** [s.toUpperCase()], a function of the platform. *)
Class JSString := {
  toUpperCase : string -> string }.

Section ForEach.
Context {A E : Type}.

(** How a statement ends. *)
Inductive Completion := Normal | Thrown.

(** An effectful computation of the applier: the calls of [E] it made, in
    order, and how it ended. *)
Definition Eff : Type := list E * Completion.

Definition done : Eff := ([], Normal).
Definition throw : Eff := ([], Thrown).
Definition call (e : E) : Eff := ([e], Normal).

(** [a; b]: [b] runs only when [a] ended normally. *)
Definition seq (a b : Eff) : Eff :=
  match snd a with
  | Normal => (fst a ++ fst b, snd b)
  | Thrown => a
  end.

Variable f : A -> Eff.

(** [l.forEach(f)]. *)
Fixpoint forEach (l : list A) : Eff :=
  match l with
  | [] => done
  | x :: l' => seq (f x) (forEach l')
  end.

End ForEach.

Arguments Eff : clear implicits.
Arguments done {E}.
Arguments throw {E}.

Section Values.
Context `{JSNumber}.

(** [Boolean(v)], the test of [if (v)] and [a && b]. *)
Definition truthy (v : value) : bool :=
  match v with
  | VUndefined | VNull => false
  | VBool b => b
  | VNumber n => number_truthy n
  | VString s => negb (bool_decide (s = ""))
  | VArray _ | VObject _ => true
  end.

(** [typeof v === 'object']: objects, arrays and [null]. *)
Definition typeof_object (v : value) : bool :=
  match v with
  | VNull | VArray _ | VObject _ => true
  | _ => false
  end.

(** [Array.isArray(v)]. *)
Definition isArray (v : value) : bool :=
  match v with VArray _ => true | _ => false end.

(** [o.k] for the own properties [fs] of an object: [undefined] when the
    key is missing (the keys read here are none of [Object.prototype]'s). *)
Fixpoint get (k : string) (fs : list (string * value)) : value :=
  match fs with
  | [] => VUndefined
  | (k', v) :: fs' => if decide (k = k') then v else get k fs'
  end.

(** [k in o] for own properties. *)
Definition has_key (k : string) (fs : list (string * value)) : bool :=
  bool_decide (k ∈ fs.*1).

(** [Object.values(o)]. *)
Definition Object_values (fs : list (string * value)) : list value := fs.*2.

(** [String(v)]; [None] when the conversion throws a TypeError. An object
    created by [JSON.parse] converts through [Object.prototype.toString]
    unless it has an own property [toString]: that one is not callable, the
    inherited [valueOf] returns the object itself, and the conversion fails.
    An array converts through [join], where [null] and [undefined] elements
    give the empty text. *)
Fixpoint JS_String (v : value) : option string :=
  match v with
  | VUndefined => Some "undefined"
  | VNull => Some "null"
  | VBool b => Some (if b then "true" else "false")
  | VNumber n => Some (number_toString n)
  | VString s => Some s
  | VArray l =>
      (fix join_elts (l : list value) : option string :=
         match l with
         | [] => Some ""
         | e :: l' =>
             let elt := match e with
                        | VUndefined | VNull => Some ""
                        | _ => JS_String e
                        end in
             match l' with
             | [] => elt
             | _ => s ← elt; r ← join_elts l'; Some (s +:+ "," +:+ r)
             end
         end) l
  | VObject fs => if has_key "toString" fs then None else Some "[object Object]"
  end.

(** ** Status Applier: [applyStatusesFromData] *)

(** One call [updateSystemStatus(system, status)]: the arguments are
    converted left to right, and a conversion that throws ends the walk. *)
Definition call_updateSystemStatus (system status : value) : Eff (string * string) :=
  match JS_String system with
  | None => throw
  | Some k =>
      match JS_String status with
      | None => throw
      | Some v => call (k, v)
      end
  end.

(** [if (data.id && data.status) updateSystemStatus(String(data.id), String(data.status))]
    for [id] one of [system], [name]. *)
Definition record_pair (id : string) (fs : list (string * value)) : Eff (string * string) :=
  if truthy (get id fs) && truthy (get "status" fs)
  then call_updateSystemStatus (get id fs) (get "status" fs)
  else done.

(** The walk. A falsy [data] returns at once; an array walks its elements;
    any other value goes through the four [if]s, which find nothing on a
    primitive (its [system], [name], [status] and [systems] are
    [undefined], and its [typeof] is not ['object']). For an object the
    third [if] walks the elements of [data.systems] when that is an array,
    and the fourth walks every property value whose [typeof] is
    ['object']. The result lists the calls of [updateSystemStatus]. *)
Fixpoint applyStatusesFromData (data : value) : Eff (string * string) :=
  if negb (truthy data) then done else
  match data with
  | VArray l => forEach applyStatusesFromData l
  | VObject fs =>
      seq (record_pair "system" fs)
     (seq (record_pair "name" fs)
     (seq ((fix systems (fs : list (string * value)) : Eff (string * string) :=
              match fs with
              | [] => done
              | (k, v) :: fs' =>
                  if decide ("systems" = k)
                  then match v with
                       | VArray l => forEach applyStatusesFromData l
                       | _ => done
                       end
                  else systems fs'
              end) fs)
          ((fix values (fs : list (string * value)) : Eff (string * string) :=
              match fs with
              | [] => done
              | (_, v) :: fs' =>
                  seq (if typeof_object v then applyStatusesFromData v else done)
                      (values fs')
              end) fs)))
  | _ => done
  end.

(** The third and the fourth [if] of the walk as statements of their own;
    [applyStatusesFromData_object] below shows the walk runs them. *)

(** [if (Array.isArray(data.systems)) data.systems.forEach(...)]. *)
Definition walk_systems (fs : list (string * value)) : Eff (string * string) :=
  match get "systems" fs with
  | VArray l => forEach applyStatusesFromData l
  | _ => done
  end.

(** [Object.values(data).forEach((value) => { if (typeof value === 'object') ... })]. *)
Definition walk_values (fs : list (string * value)) : Eff (string * string) :=
  forEach (fun v => if typeof_object v then applyStatusesFromData v else done)
          (Object_values fs).

(** The calls of [updateSystemStatus] the walk makes, in order. *)
Definition pending (data : value) : list (string * string) :=
  fst (applyStatusesFromData data).

(** The walk returns (no conversion threw). *)
Definition completes (data : value) : Prop :=
  snd (applyStatusesFromData data) = Normal.

End Values.

(* ===================================================================== *)
(** ** The component's state *)
(* ===================================================================== *)

(** [GAME_TIME_LIMIT]. *)
Definition GAME_TIME_LIMIT : Z := 600.

Inductive Role := user | model.

(** [interface Message]. *)
Record Message := mkMessage { role : Role; text : string }.

Inductive ConsoleEntry :=
| console_warn (msg : string)
| console_error (msg : string).

(** The browser around the component: whether there is a [window] at all,
    whether reading local storage works ([storage_readable = false]: the
    read throws), which texts [setItem] takes ([storage_accepts t = false]:
    it throws, as on a full quota), the text stored under [STORAGE_KEY],
    and what was written to the console, oldest first. *)
Record World := mkWorld {
  window_defined : bool;
  storage_readable : bool;
  storage_accepts : string -> bool;
  item : option string;
  console : list ConsoleEntry }.

Definition log (e : ConsoleEntry) (w : World) : World :=
  mkWorld (window_defined w) (storage_readable w) (storage_accepts w) (item w)
          (console w ++ [e]).

Definition setItem (t : string) (w : World) : World :=
  mkWorld (window_defined w) (storage_readable w) (storage_accepts w) (Some t)
          (console w).

(** The handle [ai.chats.create] returns. *)
Inductive Chat := chat_session.

Section Component.
Context `{JSONCodec} `{JSString}.

(** The state of [App] that the glue logic reads or writes: the [useState]
    cells, the two refs, the intervals of the platform, the browser, and a
    ghost list of the arguments [endGame] was called with, oldest first. *)
Record App := mkApp {
  messages : list Message;
  input : string;
  timeLeft : Z;
  gameActive : bool;
  gameStarted : bool;
  gameOver : bool;
  victory : bool;
  loading : bool;
  currentSystemData : value;
  systemStatuses : gmap string value;
  chatRef : option Chat;
  timerRef : option positive;
  intervals : gset positive;
  nextInterval : positive;
  world : World;
  endGameCalls : list bool }.

Definition setMessages (x : list Message) (s : App) : App :=
  mkApp x (input s) (timeLeft s) (gameActive s) (gameStarted s) (gameOver s)
    (victory s) (loading s) (currentSystemData s) (systemStatuses s)
    (chatRef s) (timerRef s) (intervals s) (nextInterval s) (world s)
    (endGameCalls s).

Definition setInput (x : string) (s : App) : App :=
  mkApp (messages s) x (timeLeft s) (gameActive s) (gameStarted s)
    (gameOver s) (victory s) (loading s) (currentSystemData s)
    (systemStatuses s) (chatRef s) (timerRef s) (intervals s)
    (nextInterval s) (world s) (endGameCalls s).

Definition setTimeLeft (x : Z) (s : App) : App :=
  mkApp (messages s) (input s) x (gameActive s) (gameStarted s) (gameOver s)
    (victory s) (loading s) (currentSystemData s) (systemStatuses s)
    (chatRef s) (timerRef s) (intervals s) (nextInterval s) (world s)
    (endGameCalls s).

Definition setGameActive (x : bool) (s : App) : App :=
  mkApp (messages s) (input s) (timeLeft s) x (gameStarted s) (gameOver s)
    (victory s) (loading s) (currentSystemData s) (systemStatuses s)
    (chatRef s) (timerRef s) (intervals s) (nextInterval s) (world s)
    (endGameCalls s).

Definition setGameStarted (x : bool) (s : App) : App :=
  mkApp (messages s) (input s) (timeLeft s) (gameActive s) x (gameOver s)
    (victory s) (loading s) (currentSystemData s) (systemStatuses s)
    (chatRef s) (timerRef s) (intervals s) (nextInterval s) (world s)
    (endGameCalls s).

Definition setGameOver (x : bool) (s : App) : App :=
  mkApp (messages s) (input s) (timeLeft s) (gameActive s) (gameStarted s) x
    (victory s) (loading s) (currentSystemData s) (systemStatuses s)
    (chatRef s) (timerRef s) (intervals s) (nextInterval s) (world s)
    (endGameCalls s).

Definition setVictory (x : bool) (s : App) : App :=
  mkApp (messages s) (input s) (timeLeft s) (gameActive s) (gameStarted s)
    (gameOver s) x (loading s) (currentSystemData s) (systemStatuses s)
    (chatRef s) (timerRef s) (intervals s) (nextInterval s) (world s)
    (endGameCalls s).

Definition setLoading (x : bool) (s : App) : App :=
  mkApp (messages s) (input s) (timeLeft s) (gameActive s) (gameStarted s)
    (gameOver s) (victory s) x (currentSystemData s) (systemStatuses s)
    (chatRef s) (timerRef s) (intervals s) (nextInterval s) (world s)
    (endGameCalls s).

Definition setCurrentSystemData (x : value) (s : App) : App :=
  mkApp (messages s) (input s) (timeLeft s) (gameActive s) (gameStarted s)
    (gameOver s) (victory s) (loading s) x (systemStatuses s) (chatRef s)
    (timerRef s) (intervals s) (nextInterval s) (world s) (endGameCalls s).

Definition setSystemStatuses (x : gmap string value) (s : App) : App :=
  mkApp (messages s) (input s) (timeLeft s) (gameActive s) (gameStarted s)
    (gameOver s) (victory s) (loading s) (currentSystemData s) x (chatRef s)
    (timerRef s) (intervals s) (nextInterval s) (world s) (endGameCalls s).

Definition set_chatRef (x : option Chat) (s : App) : App :=
  mkApp (messages s) (input s) (timeLeft s) (gameActive s) (gameStarted s)
    (gameOver s) (victory s) (loading s) (currentSystemData s)
    (systemStatuses s) x (timerRef s) (intervals s) (nextInterval s)
    (world s) (endGameCalls s).

Definition set_timerRef (x : option positive) (s : App) : App :=
  mkApp (messages s) (input s) (timeLeft s) (gameActive s) (gameStarted s)
    (gameOver s) (victory s) (loading s) (currentSystemData s)
    (systemStatuses s) (chatRef s) x (intervals s) (nextInterval s)
    (world s) (endGameCalls s).

Definition set_intervals (x : gset positive) (s : App) : App :=
  mkApp (messages s) (input s) (timeLeft s) (gameActive s) (gameStarted s)
    (gameOver s) (victory s) (loading s) (currentSystemData s)
    (systemStatuses s) (chatRef s) (timerRef s) x (nextInterval s) (world s)
    (endGameCalls s).

Definition set_nextInterval (x : positive) (s : App) : App :=
  mkApp (messages s) (input s) (timeLeft s) (gameActive s) (gameStarted s)
    (gameOver s) (victory s) (loading s) (currentSystemData s)
    (systemStatuses s) (chatRef s) (timerRef s) (intervals s) x (world s)
    (endGameCalls s).

Definition set_world (x : World) (s : App) : App :=
  mkApp (messages s) (input s) (timeLeft s) (gameActive s) (gameStarted s)
    (gameOver s) (victory s) (loading s) (currentSystemData s)
    (systemStatuses s) (chatRef s) (timerRef s) (intervals s)
    (nextInterval s) x (endGameCalls s).

Definition set_endGameCalls (x : list bool) (s : App) : App :=
  mkApp (messages s) (input s) (timeLeft s) (gameActive s) (gameStarted s)
    (gameOver s) (victory s) (loading s) (currentSystemData s)
    (systemStatuses s) (chatRef s) (timerRef s) (intervals s)
    (nextInterval s) (world s) x.

(** ** Status Store: [loadStatuses], [persistStatuses] *)

(** [defaultSystemStatuses]. *)
Definition defaultSystemStatuses : gmap string value :=
  list_to_map [("PROPULSION", VString "CRITICAL");
               ("LIFE SUPPORT", VString "CRITICAL");
               ("NAVIGATION", VString "CRITICAL")].

(** The array index [i] as a property key. *)
Definition index_key (i : nat) : string := NilEmpty.string_of_uint (Nat.to_uint i).

Fixpoint string_chars (s : string) : list value :=
  match s with
  | "" => []
  | String c s' => VString (String c "") :: string_chars s'
  end.

(** The own enumerable properties [{ ...v }] copies: those of an object,
    the indexed elements of an array, the indexed characters of a string,
    none for the other values. *)
Definition spread (v : value) : list (string * value) :=
  match v with
  | VObject fs => fs
  | VArray l => imap (fun i e => (index_key i, e)) l
  | VString s => imap (fun i e => (index_key i, e)) (string_chars s)
  | _ => []
  end.

(** Properties written one after the other into [m]: a later one wins. *)
Definition assign (props : list (string * value)) (m : gmap string value)
  : gmap string value :=
  fold_left (fun acc kv => <[kv.1 := kv.2]> acc) props m.

(** [loadStatuses()]: the map it returns and the browser afterwards (the
    console may have a warning more). *)
Definition loadStatuses (w : World) : gmap string value * World :=
  if negb (window_defined w) then (defaultSystemStatuses, w) else
  if negb (storage_readable w)
  then (defaultSystemStatuses, log (console_warn "Failed to load system statuses") w)
  else
    match item w with
    | None => (defaultSystemStatuses, w)
    | Some stored =>
        if bool_decide (stored = "") then (defaultSystemStatuses, w) else
        match JSON_parse stored with
        | Some parsed => (assign (spread parsed) defaultSystemStatuses, w)
        | None =>
            (defaultSystemStatuses,
             log (console_warn "Failed to load system statuses") w)
        end
    end.

(** [persistStatuses(next)]. *)
Definition persistStatuses (next : gmap string value) (w : World) : World :=
  if negb (window_defined w) then w else
  if storage_accepts w (JSON_stringify next)
  then setItem (JSON_stringify next) w
  else log (console_warn "Failed to persist statuses") w.

(** [updateSystemStatus(system, status)], the updater it queues included:
    the entry for the upper-cased key is written and the whole map stored. *)
Definition updateSystemStatus (system status : string) (s : App) : App :=
  let key := toUpperCase system in
  let value := toUpperCase status in
  let next := <[key := VString value]> (systemStatuses s) in
  setSystemStatuses next (set_world (persistStatuses next (world s)) s).

(** The queued calls run in the order they were made. *)
Definition flush (calls : list (string * string)) (s : App) : App :=
  fold_left (fun s kv => updateSystemStatus kv.1 kv.2 s) calls s.

(** ** JSON Extractor: [extractJson] *)

(** The value returned, and the console entry of a failed parse. *)
Definition extractJson (text : string) : value * list ConsoleEntry :=
  match regex_match text with
  | Some group =>
      if bool_decide (group = "") then (VNull, []) else
      match JSON_parse group with
      | Some v => (v, [])
      | None => (VNull, [console_error "Failed to parse extracted JSON"])
      end
  | None => (VNull, [])
  end.

(** ** Countdown Timer: [startTimer], [endGame] *)

(** [if (timerRef.current) clearInterval(timerRef.current)]; an interval id
    is a positive number, hence truthy. *)
Definition clear_timerRef (s : App) : App :=
  set_intervals
    match timerRef s with
    | Some id => intervals s ∖ {[id]}
    | None => intervals s
    end s.

(** [endGame(isVictory)]. *)
Definition endGame (isVictory : bool) (s : App) : App :=
  setVictory isVictory
    (setGameOver true
       (setGameActive false
          (set_endGameCalls (endGameCalls s ++ [isVictory]) (clear_timerRef s)))).

(** The callback of the interval: [setTimeLeft((prev) => ...)]. *)
Definition timer_callback (s : App) : App :=
  if (timeLeft s <=? 1)%Z
  then setTimeLeft 0 (endGame false s)
  else setTimeLeft (timeLeft s - 1) s.

(** [startTimer()]. *)
Definition startTimer (s : App) : App :=
  let s1 := clear_timerRef s in
  let id := nextInterval s1 in
  set_timerRef (Some id)
    (set_nextInterval (id + 1)%positive
       (set_intervals ({[id]} ∪ intervals s1) s1)).

(** One second passes for interval [id]: its callback runs when the
    interval is still scheduled. *)
Definition tick (id : positive) (s : App) : App :=
  if bool_decide (id ∈ intervals s) then timer_callback s else s.

(** [n] ticks of interval [id]. *)
Fixpoint ticks (id : positive) (n : nat) (s : App) : App :=
  match n with
  | O => s
  | S n' => ticks id n' (tick id s)
  end.

(** ** Chat Session Controller: [startGame], [handleSend] *)

(** What the model service does with a request: [Rejected] when
    [sendMessageStream] fails, else the [chunk.text] of each chunk
    ([None] for [undefined]) and whether the stream then ends
    ([completed = true]) or throws. *)
Inductive Reply :=
| Rejected
| Streamed (chunks : list (option string)) (completed : bool).

(** [for await (const chunk of stream) { fullText += chunk.text || '';
    setMessages(...) }]: the text accumulated and the state after the
    chunks, [on_chunk] being the [setMessages] of the loop body. *)
Fixpoint consume (on_chunk : string -> App -> App) (fullText : string)
    (chunks : list (option string)) (s : App) : string * App :=
  match chunks with
  | [] => (fullText, s)
  | c :: chunks' =>
      let fullText := fullText +:+ default "" c in
      consume on_chunk fullText chunks' (on_chunk fullText s)
  end.

(** [const extracted = extractJson(fullText); if (extracted) { ... }], with
    the queued status updates run; [Thrown] when the applier threw. *)
Definition apply_extracted (fullText : string) (s : App) : App * Completion :=
  let '(extracted, logged) := extractJson fullText in
  let s1 := set_world (fold_left (fun w e => log e w) logged (world s)) s in
  if truthy extracted
  then
    let r := applyStatusesFromData extracted in
    (flush (fst r) (setCurrentSystemData extracted s1), snd r)
  else (s1, Normal).

(** [finally { setLoading(false) }]. *)
Definition finally (s : App) : App := setLoading false s.

(** The start of [startGame], up to the [try]. *)
Definition startGame_begin (s : App) : App :=
  let s1 :=
    setCurrentSystemData VNull
      (setMessages []
         (setTimeLeft GAME_TIME_LIMIT
            (setVictory false
               (setGameOver false
                  (setGameActive true (setGameStarted true (setLoading true s))))))) in
  let loaded := loadStatuses (world s1) in
  setSystemStatuses loaded.1 (set_world loaded.2 s1).

(** The [catch] of [startGame]. *)
Definition startGame_catch (s : App) : App :=
  setMessages [mkMessage model "ERROR: NEURAL LINK FAILURE. REBOOT REQUIRED."]
    (set_world (log (console_error "Failed to start game:") (world s)) s).

(** [setMessages([{ role: 'model', text: '' }])] once the stream is open. *)
Definition startGame_open (s : App) : App :=
  setMessages [mkMessage model ""] s.

(** One chunk of the first turn, [fullText] being the text with the chunk
    added. *)
Definition startGame_chunk (fullText : string) (s : App) : App :=
  setMessages [mkMessage model fullText] s.

(** After the stream of the first turn has ended: extraction, statuses,
    and the timer. *)
Definition startGame_complete (fullText : string) (s : App) : App :=
  match apply_extracted fullText s with
  | (s1, Normal) => startTimer s1
  | (s1, Thrown) => startGame_catch s1
  end.

(** [startGame()] run in one go. [created = false]: [ai.chats.create]
    throws. *)
Definition startGame (created : bool) (reply : Reply) (s : App) : App :=
  let s1 := startGame_begin s in
  let s2 :=
    if negb created then startGame_catch s1 else
    let s1 := set_chatRef (Some chat_session) s1 in
    match reply with
    | Rejected => startGame_catch s1
    | Streamed chunks completed =>
        let '(fullText, s2) := consume startGame_chunk "" chunks (startGame_open s1) in
        if completed then startGame_complete fullText s2 else startGame_catch s2
    end in
  finally s2.

(** The guard of [handleSend]. *)
Definition can_send (s : App) : bool :=
  negb (bool_decide (trim (input s) = "")) && gameActive s && negb (loading s).

(** The start of [handleSend], up to the [try], once the guard has passed. *)
Definition handleSend_begin (s : App) : App :=
  setLoading true
    (setMessages (messages s ++ [mkMessage user (input s)]) (setInput "" s)).

(** The [catch] of [handleSend]. *)
Definition handleSend_catch (s : App) : App :=
  setMessages (messages s ++ [mkMessage model "ERROR: COMMUNICATION INTERRUPTED. RETRY COMMAND."])
    (set_world (log (console_error "AI Error:") (world s)) s).

(** The empty model message the stream is written into. *)
Definition handleSend_open (s : App) : App :=
  setMessages (messages s ++ [mkMessage model ""]) s.

(** [newMessages[newMessages.length - 1] = m]: the last message is
    replaced; on an empty array the write lands on the property [-1] and
    the array has no element more. *)
Definition replace_last (m : Message) (l : list Message) : list Message :=
  match l with
  | [] => []
  | _ => removelast l ++ [m]
  end.

(** One chunk of a follow-up turn. *)
Definition handleSend_chunk (fullText : string) (s : App) : App :=
  setMessages (replace_last (mkMessage model fullText) (messages s)) s.

(** After the stream of a follow-up turn has ended: extraction, statuses,
    and the victory marker. *)
Definition handleSend_complete (fullText : string) (s : App) : App :=
  match apply_extracted fullText s with
  | (s1, Normal) =>
      if includes (toUpperCase fullText) "MISSION SUCCESS"
      then endGame true s1
      else s1
  | (s1, Thrown) => handleSend_catch s1
  end.

(** [handleSend()] run in one go. Without a chat in [chatRef.current] the
    method call throws a TypeError, which the [catch] receives. *)
Definition handleSend (reply : Reply) (s : App) : App :=
  if negb (can_send s) then s else
  let s1 := handleSend_begin s in
  let s2 :=
    match chatRef s1, reply with
    | None, _ | Some _, Rejected => handleSend_catch s1
    | Some _, Streamed chunks completed =>
        let '(fullText, s2) := consume handleSend_chunk "" chunks (handleSend_open s1) in
        if completed then handleSend_complete fullText s2 else handleSend_catch s2
    end in
  finally s2.

(** ** The component over time *)

(** The first render: every [useState] cell at its initial value, the
    status map read by the lazy initialiser [() => loadStatuses()]. *)
Definition initialApp (w : World) : App :=
  let loaded := loadStatuses w in
  mkApp [] "" GAME_TIME_LIMIT false false false false false VNull loaded.1
        None None ∅ 1%positive loaded.2 [].

(** One uninterrupted piece of work of the event loop: a piece of one of
    the two asynchronous handlers (they give way at each [await]), a tick of
    an interval, or a key stroke in the input box. The pieces of different
    activities may interleave in any order. *)
Inductive step : App -> App -> Prop :=
| step_input t s : step s (setInput t s)
| step_tick id s : step s (tick id s)
| step_startGame_begin s : step s (startGame_begin s)
| step_startGame_created s : step s (set_chatRef (Some chat_session) s)
| step_startGame_open s : step s (startGame_open s)
| step_startGame_chunk t s : step s (startGame_chunk t s)
| step_startGame_complete t s : step s (startGame_complete t s)
| step_startGame_catch s : step s (startGame_catch s)
| step_handleSend_begin s : can_send s = true -> step s (handleSend_begin s)
| step_handleSend_open s : step s (handleSend_open s)
| step_handleSend_chunk t s : step s (handleSend_chunk t s)
| step_handleSend_complete t s : step s (handleSend_complete t s)
| step_handleSend_catch s : step s (handleSend_catch s)
| step_finally s : step s (finally s).

(** The states the component can be in, started in the browser [w]. *)
Definition reachable (w : World) (s : App) : Prop := rtc step (initialApp w) s.

End Component.

(* ===================================================================== *)
(** ** Narration, the transcript and the clock *)
(* ===================================================================== *)

(** *** Texts: [cleanSpeechText] and the text a message is shown with *)

(** The expression [/open[\s\S]*?close/] anchored at the start of [s], for
    two literals [open] and [close]: the length of the match. *)
Definition match_length (opn cls s : string) : option nat :=
  match strip_prefix opn s with
  | Some rest =>
      match lazy_until cls rest with
      | Some group => Some (String.length opn + String.length group + String.length cls)
      | None => None
      end
  | None => None
  end.

(** [s.replace(/open[\s\S]*?close/g, '')]: the matches are looked for from
    the left, each search starting where the match before ended; what lies
    in no match is kept. [skip] counts the characters of the current match
    still to drop. *)
Fixpoint remove_matches (opn cls : string) (skip : nat) (s : string) : string :=
  match s with
  | "" => ""
  | String c s' =>
      match skip with
      | S k => remove_matches opn cls k s'
      | O =>
          match match_length opn cls s with
          | Some (S n) => remove_matches opn cls n s'
          | _ => String c (remove_matches opn cls 0 s')
          end
      end
  end.

(** The class [[`*_>#-]]. *)
Definition is_markdown_noise (c : ascii) : bool :=
  let n := nat_of_ascii c in
  (n =? 96) || (n =? 42) || (n =? 95) || (n =? 62) || (n =? 35) || (n =? 45).

(** [s.replace(/[`*_>#-]/g, '')]. *)
Fixpoint remove_noise (s : string) : string :=
  match s with
  | "" => ""
  | String c s' => if is_markdown_noise c then remove_noise s' else String c (remove_noise s')
  end.

(** [s.replace(/\s+/g, ' ')]; [in_run] tells that the character before was
    white space, already replaced. *)
Fixpoint collapse_spaces (in_run : bool) (s : string) : string :=
  match s with
  | "" => ""
  | String c s' =>
      if is_space c
      then if in_run then collapse_spaces true s' else String " " (collapse_spaces true s')
      else String c (collapse_spaces false s')
  end.

(** [cleanSpeechText(text)]. *)
Definition cleanSpeechText (text : string) : string :=
  trim (collapse_spaces false (remove_noise (remove_matches "```" "```" 0 text))).

(** What the transcript hands to [Markdown] for a message: a model message
    without its JSON blocks and trimmed, a user message as it is. *)
Definition display_text (m : Message) : string :=
  match role m with
  | model => trim (remove_matches fence_open fence_close 0 (text m))
  | user => text m
  end.

(** *** Narration: [speakText], the narration effect, the audio button *)

(** A [SpeechSynthesisUtterance] with the properties [speakText] sets. *)
Record Utterance := mkUtterance {
  utterance_text : string;
  utterance_rate : QArith_base.Q;
  utterance_pitch : QArith_base.Q;
  utterance_volume : QArith_base.Q }.

(** The browser as narration sees it: is there a [window], and is
    [speechSynthesis] in it. *)
Record SpeechPlatform := mkSpeechPlatform {
  has_window : bool;
  has_speechSynthesis : bool }.

(** The state narration keeps: the two [useState] cells, the ref with the
    text spoken last, and the utterances handed to [speechSynthesis] since
    its last [cancel] ([cancel] drops them, [speak] adds one). *)
Record Voice := mkVoice {
  voiceEnabled : bool;
  voiceSupported : bool;
  spokenRef : string;
  speaking : list Utterance }.

(** The first render: [useState(false)], [useState(true)], [useRef('')]. *)
Definition initialVoice : Voice := mkVoice false true "" [].

(** The effect run once on mount: [setVoiceSupported(false)] without a
    window or without [speechSynthesis]. *)
Definition detect_voice (p : SpeechPlatform) (v : Voice) : Voice :=
  if negb (has_window p) || negb (has_speechSynthesis p)
  then mkVoice (voiceEnabled v) false (spokenRef v) (speaking v)
  else v.

(** The utterance [speakText] makes for [text]: the cleaned text, at rate
    1.25, pitch 1 and volume 1. *)
Definition utterance_of (text : string) : Utterance :=
  mkUtterance (cleanSpeechText text) (QArith_base.Qmake 5 4)
              (QArith_base.Qmake 1 1) (QArith_base.Qmake 1 1).

(** [speakText(text)]; [None] when [new SpeechSynthesisUtterance] is
    reached in a window without speech synthesis and throws. *)
Definition speakText (p : SpeechPlatform) (text : string) (v : Voice) : option Voice :=
  if negb (voiceEnabled v) || negb (voiceSupported v) || negb (has_window p) then Some v
  else if negb (has_speechSynthesis p) then None
  else
    let utterance := utterance_of text in
    Some (mkVoice (voiceEnabled v) (voiceSupported v) (spokenRef v) [utterance]).

(** The effect on [messages], [voiceEnabled] and [loading]. *)
Definition narrate (p : SpeechPlatform) (messages : list Message) (loading : bool)
    (v : Voice) : option Voice :=
  if negb (voiceEnabled v) || loading || bool_decide (messages = []) then Some v else
  match last messages with
  | None => Some v
  | Some m =>
      match role m with
      | user => Some v
      | model =>
          let text := trim (text m) in
          if bool_decide (text = "") || bool_decide (text = spokenRef v) then Some v
          else speakText p text
                 (mkVoice (voiceEnabled v) (voiceSupported v) text (speaking v))
      end
  end.

(** The click on the audio button:
    [setVoiceEnabled((v) => { ... return next; })]. *)
Definition toggle_voice (p : SpeechPlatform) (v : Voice) : Voice :=
  let next := negb (voiceEnabled v) in
  mkVoice next (voiceSupported v)
    (if next then "" else spokenRef v)
    (if negb next && has_window p && has_speechSynthesis p then [] else speaking v).

(** [disabled={!voiceSupported}] on the audio button, negated. *)
Definition audio_button_enabled (v : Voice) : bool := voiceSupported v.

(** The narration states the component can be in: the one after the
    mount effect, and from there the clicks on the audio button, which is
    disabled without support, and the runs of the narration effect that
    return. *)
Inductive voice_reachable (p : SpeechPlatform) : Voice -> Prop :=
  | voice_mounted : voice_reachable p (detect_voice p initialVoice)
  | voice_toggled v :
      voice_reachable p v -> audio_button_enabled v = true ->
      voice_reachable p (toggle_voice p v)
  | voice_narrated v messages loading v' :
      voice_reachable p v -> narrate p messages loading v = Some v' ->
      voice_reachable p v'.

(** *** The clock: [formatTime] *)

(** [n.toString()] of a whole number [n] that prints without an exponent,
    as the seconds of the clock do. *)
Definition Number_toString (n : Z) : string :=
  NilZero.string_of_int (Z.to_int n).

(** [s.padStart(targetLength, c)] with a fill string of the one character
    [c]. *)
Definition padStart (targetLength : nat) (c : ascii) (s : string) : string :=
  String.concat "" (replicate (targetLength - String.length s) (String c "")) +:+ s.

(** [formatTime(seconds)] on whole seconds: [Math.floor(seconds / 60)] is
    the quotient rounded down, and [seconds % 60] has the sign of
    [seconds]. *)
Definition formatTime (seconds : Z) : string :=
  let mins := (seconds / 60)%Z in
  let secs := Z.rem seconds 60 in
  Number_toString mins +:+ ":" +:+ padStart 2 "0" (Number_toString secs).

(** *** The send button *)

Section Controls.
Context `{JSONCodec}.

(** [disabled={!gameActive || loading || !input.trim()}] on the send
    button. *)
Definition submit_disabled (s : App) : bool :=
  negb (gameActive s) || loading s || bool_decide (trim (input s) = "").

End Controls.

(* ===================================================================== *)
(** ** A reference platform *)
(* ===================================================================== *)

(** A platform to run the component on: integers for the numbers, and a
    small JSON codec (objects, arrays, texts with the escapes of the quote
    and the backslash, integers, [true], [false], [null]; no fraction, no
    exponent, no [\u] escape), and the case mapping of the letters a to z,
    which is what [toUpperCase] does on a text of the ASCII range. It gives
    the scenarios below something to evaluate; no general property rests
    on it. *)
Module Reference.

(** [c.toUpperCase()] for a character of the ASCII range. *)
Definition upper_ascii (c : ascii) : ascii :=
  let n := nat_of_ascii c in
  if (97 <=? n)%nat && (n <=? 122)%nat then ascii_of_nat (n - 32) else c.

(** [s.toUpperCase()] for a text of the ASCII range. *)
Fixpoint ascii_toUpperCase (s : string) : string :=
  match s with
  | "" => ""
  | String c s' => String (upper_ascii c) (ascii_toUpperCase s')
  end.

Definition ascii_case : JSString := {| toUpperCase := ascii_toUpperCase |}.

Definition Z_number : JSNumber :=
  {| number := Z;
     number_truthy z := negb (z =? 0)%Z;
     number_toString z := NilZero.string_of_int (Z.to_int z) |}.

#[local] Existing Instance Z_number.

Definition DQ : ascii := ascii_of_nat 34.
Definition BS : ascii := ascii_of_nat 92.

Definition is_digit (c : ascii) : bool :=
  let n := nat_of_ascii c in (48 <=? n)%nat && (n <=? 57)%nat.

(** The white space of JSON: tab, line feed, carriage return and space. *)
Definition is_json_space (c : ascii) : bool :=
  let n := nat_of_ascii c in
  (n =? 9)%nat || (n =? 10)%nat || (n =? 13)%nat || (n =? 32)%nat.

Fixpoint skip_ws (s : string) : string :=
  match s with
  | String c s' => if is_json_space c then skip_ws s' else s
  | "" => ""
  end.

(** The characters of a text up to its closing quote, and what follows. *)
Fixpoint parse_chars (s : string) : option (string * string) :=
  match s with
  | "" => None
  | String c s' =>
      if decide (c = DQ) then Some ("", s') else
      if decide (c = BS) then
        match s' with
        | String e s'' =>
            if bool_decide (e = DQ) || bool_decide (e = BS)
            then '(t, r) ← parse_chars s''; Some (String e t, r)
            else None
        | "" => None
        end
      else '(t, r) ← parse_chars s'; Some (String c t, r)
  end.

(** The digits at the start of [s], read after [acc], and what follows. *)
Fixpoint parse_digits (acc : Z) (s : string) : Z * string :=
  match s with
  | String c s' =>
      if is_digit c
      then parse_digits (10 * acc + Z.of_nat (nat_of_ascii c - 48)) s'
      else (acc, s)
  | "" => (acc, "")
  end.

(** A later value of a key replaces the earlier one where that one stands. *)
Fixpoint put (k : string) (v : value) (fs : list (string * value))
  : list (string * value) :=
  match fs with
  | [] => [(k, v)]
  | (k', v') :: fs' => if decide (k = k') then (k, v) :: fs' else (k', v') :: put k v fs'
  end.

Section Loops.
Variable parse_value : string -> option (value * string).

(** The elements of an array after its first bracket or a comma. *)
Fixpoint parse_elements (fuel : nat) (acc : list value) (s : string)
  : option (list value * string) :=
  match fuel with
  | O => None
  | S fuel =>
      '(v, r) ← parse_value s;
      match skip_ws r with
      | String c r' =>
          if decide (c = ","%char) then parse_elements fuel (acc ++ [v]) r'
          else if decide (c = "]"%char) then Some (acc ++ [v], r')
          else None
      | "" => None
      end
  end.

(** The members of an object after its first brace or a comma. *)
Fixpoint parse_members (fuel : nat) (acc : list (string * value)) (s : string)
  : option (list (string * value) * string) :=
  match fuel with
  | O => None
  | S fuel =>
      match skip_ws s with
      | String q s1 =>
          if decide (q = DQ) then
            '(k, s2) ← parse_chars s1;
            match skip_ws s2 with
            | String c s3 =>
                if decide (c = ":"%char) then
                  '(v, r) ← parse_value s3;
                  match skip_ws r with
                  | String c r' =>
                      if decide (c = ","%char) then parse_members fuel (put k v acc) r'
                      else if decide (c = "}"%char) then Some (put k v acc, r')
                      else None
                  | "" => None
                  end
                else None
            | "" => None
            end
          else None
      | "" => None
      end
  end.

End Loops.

Fixpoint parse_value (fuel : nat) (s : string) : option (value * string) :=
  match fuel with
  | O => None
  | S fuel =>
      match skip_ws s with
      | "" => None
      | String c r as s0 =>
          if decide (c = "{"%char) then
            match skip_ws r with
            | String "}"%char r' => Some (VObject [], r')
            | _ => '(fs, r') ← parse_members (parse_value fuel) fuel [] r;
                   Some (VObject fs, r')
            end
          else if decide (c = "["%char) then
            match skip_ws r with
            | String "]"%char r' => Some (VArray [], r')
            | _ => '(l, r') ← parse_elements (parse_value fuel) fuel [] r;
                   Some (VArray l, r')
            end
          else if decide (c = DQ) then
            '(t, r') ← parse_chars r; Some (VString t, r')
          else if decide (c = "-"%char) then
            match r with
            | String d _ =>
                if is_digit d
                then let '(z, r') := parse_digits 0 r in Some (VNumber (- z)%Z, r')
                else None
            | "" => None
            end
          else if is_digit c then
            let '(z, r') := parse_digits 0 s0 in Some (VNumber z, r')
          else
            match strip_prefix "true" s0, strip_prefix "false" s0, strip_prefix "null" s0 with
            | Some r', _, _ => Some (VBool true, r')
            | _, Some r', _ => Some (VBool false, r')
            | _, _, Some r' => Some (VNull, r')
            | _, _, _ => None
            end
      end
  end.

(** [JSON.parse(s)]: one value and nothing but white space after it. *)
Definition parse (s : string) : option value :=
  '(v, r) ← parse_value (S (String.length s)) s;
  if bool_decide (skip_ws r = "") then Some v else None.

Fixpoint quote_chars (s : string) : string :=
  match s with
  | "" => String DQ ""
  | String c s' =>
      if bool_decide (c = DQ) || bool_decide (c = BS)
      then String BS (String c (quote_chars s'))
      else String c (quote_chars s')
  end.

Definition quote (s : string) : string := String DQ (quote_chars s).

Definition commas (l : list string) : string :=
  match l with
  | [] => ""
  | x :: l' => fold_left (fun acc y => acc +:+ "," +:+ y) l' x
  end.

(** [JSON.stringify(v)]; a property whose value is [undefined] is left out,
    an [undefined] element of an array is written [null]. *)
Fixpoint print (v : value) : string :=
  match v with
  | VUndefined | VNull => "null"
  | VBool b => if b then "true" else "false"
  | VNumber z => number_toString z
  | VString s => quote s
  | VArray l => "[" +:+ commas ((fix go (l : list value) :=
                   match l with [] => [] | e :: l' => print e :: go l' end) l) +:+ "]"
  | VObject fs => "{" +:+ commas ((fix go (fs : list (string * value)) :=
                   match fs with
                   | [] => []
                   | (_, VUndefined) :: fs' => go fs'
                   | (k, e) :: fs' => (quote k +:+ ":" +:+ print e) :: go fs'
                   end) fs) +:+ "}"
  end.

Definition stringify (m : gmap string value) : string :=
  print (VObject (map_to_list m)).

Definition codec : JSONCodec :=
  {| JSON_parse := parse; JSON_stringify := stringify |}.

(** A browser with an empty, working local storage. *)
Definition fresh_browser : World := mkWorld true true (fun _ => true) None [].

End Reference.

(* ===================================================================== *)
(** ** The vocabulary of the specification *)
(* ===================================================================== *)

(** [p] occurs in [s] after [pre], followed by [suf], and nowhere earlier. *)
Definition first_occurrence (p s pre suf : string) : Prop :=
  s = pre +:+ p +:+ suf /\
  forall pre' suf', s = pre' +:+ p +:+ suf' -> String.length pre <= String.length pre'.

(** A fenced block tagged as JSON with content [content]: the text after
    the first opening fence, up to the first closing fence that follows. *)
Definition first_json_block (text content : string) : Prop :=
  exists pre rest suf,
    first_occurrence fence_open text pre rest /\
    first_occurrence fence_close rest content suf.

Section Vocabulary.
Context `{JSNumber} `{JSString}.

(** The updates the claim's words describe as amended: what an object
    records itself, and what it passes on from below. *)
Inductive records : value -> string * string -> Prop :=
| records_system fs k v :
    truthy (get "system" fs) = true -> truthy (get "status" fs) = true ->
    JS_String (get "system" fs) = Some k -> JS_String (get "status" fs) = Some v ->
    records (VObject fs) (k, v)
| records_name fs k v :
    truthy (get "name" fs) = true -> truthy (get "status" fs) = true ->
    JS_String (get "name" fs) = Some k -> JS_String (get "status" fs) = Some v ->
    records (VObject fs) (k, v)
| records_systems fs l e u :
    get "systems" fs = VArray l -> e ∈ l -> records e u -> records (VObject fs) u
| records_value fs x u :
    x ∈ Object_values fs -> typeof_object x = true -> records x u ->
    records (VObject fs) u
| records_element l e u :
    e ∈ l -> records e u -> records (VArray l) u.

(** The updates as the claim words them: the [name] pair only when the
    node has no [system] and [status] field both, and a field counts when it
    is there. *)
Inductive records_stated : value -> string * string -> Prop :=
| stated_system fs k v :
    has_key "system" fs = true -> has_key "status" fs = true ->
    JS_String (get "system" fs) = Some k -> JS_String (get "status" fs) = Some v ->
    records_stated (VObject fs) (k, v)
| stated_name fs k v :
    ~ (has_key "system" fs = true /\ has_key "status" fs = true) ->
    has_key "name" fs = true -> has_key "status" fs = true ->
    JS_String (get "name" fs) = Some k -> JS_String (get "status" fs) = Some v ->
    records_stated (VObject fs) (k, v)
| stated_systems fs l e u :
    get "systems" fs = VArray l -> e ∈ l -> records_stated e u ->
    records_stated (VObject fs) u
| stated_value fs x u :
    x ∈ Object_values fs -> typeof_object x = true -> records_stated x u ->
    records_stated (VObject fs) u
| stated_element l e u :
    e ∈ l -> records_stated e u -> records_stated (VArray l) u.

(** [n] occurs in [v], at any depth. *)
Inductive subvalue (n : value) : value -> Prop :=
| subvalue_here : subvalue n n
| subvalue_element e l : e ∈ l -> subvalue n e -> subvalue n (VArray l)
| subvalue_field k x fs : (k, x) ∈ fs -> subvalue n x -> subvalue n (VObject fs).

(** The status of the last call among [calls] whose upper-cased key is [K]. *)
Definition last_status (K : string) (calls : list (string * string)) : option string :=
  fold_left (fun acc kv => if decide (toUpperCase kv.1 = K) then Some kv.2 else acc)
            calls None.

(** The three subsystems every status map lists. *)
Definition default_keys : list string := ["PROPULSION"; "LIFE SUPPORT"; "NAVIGATION"].

Definition has_defaults (m : gmap string value) : Prop :=
  forall k, k ∈ default_keys -> is_Some (m !! k).

End Vocabulary.

Section SessionVocabulary.
Context `{JSONCodec} `{JSString}.

(** At most the interval [timerRef.current] names is scheduled. *)
Definition one_timer (s : App) : Prop :=
  forall id, id ∈ intervals s -> timerRef s = Some id.

(** [disabled={!gameActive || loading}] on the input box, negated. *)
Definition input_enabled (s : App) : bool := gameActive s && negb (loading s).


(** The request failed: it was rejected, or its stream broke off. *)
Definition link_failure (reply : Reply) : bool :=
  match reply with
  | Rejected => true
  | Streamed _ completed => negb completed
  end.

End SessionVocabulary.

(* ===================================================================== *)
(** ** The vocabulary of the further properties *)
(* ===================================================================== *)

(** Every character of [s] passes the test [P]. *)
Definition every (P : ascii -> bool) (s : string) : Prop :=
  Forall (fun c => P c = true) (list_ascii_of_string s).

(** [p] occurs nowhere in [s]. *)
Definition absent (p s : string) : Prop :=
  forall pre suf, s <> pre +:+ p +:+ suf.

(** A text of white space only. *)
Definition blank (t : string) : Prop := every is_space t.

(** The backtick. *)
Definition backtick : ascii := ascii_of_nat 96.

(** The character of the decimal digit [d]. *)
Definition digit (d : Z) : ascii := ascii_of_nat (48 + Z.to_nat d).

(** The fragments of a stream put together, an [undefined] one counting as
    the empty text. *)
Definition accumulated (chunks : list (option string)) : string :=
  foldr (fun c acc => default "" c +:+ acc) "" chunks.

(** What [cleanSpeechText] returns: no markdown noise, white space as
    single spaces, none at either end. *)
Record spoken_clean (r : string) : Prop := {
  clean_no_noise : every (fun c => negb (is_markdown_noise c)) r;
  clean_collapsed : collapse_spaces false r = r;
  clean_trimmed : trim r = r }.

(** The support the component believes in is the support the browser
    has. *)
Definition support_detected (p : SpeechPlatform) (v : Voice) : Prop :=
  voiceSupported v = has_window p && has_speechSynthesis p.

(** What holds of every narration state: support is what the mount effect
    found, narration is on only with support, and speech synthesis holds
    no utterance without support and never more than one. *)
Record voice_inv (p : SpeechPlatform) (v : Voice) : Prop := {
  inv_support : support_detected p v;
  inv_enabled : voiceEnabled v = true -> voiceSupported v = true;
  inv_silent : voiceSupported v = false -> speaking v = [];
  inv_queue : length (speaking v) <= 1;
  inv_utterance : forall u, u ∈ speaking v -> exists t, u = utterance_of t }.

Section HandlerVocabulary.
Context `{JSONCodec} `{JSString}.

(** The flags of a session agree: a won game is over, and a game that is
    over is not active. *)
Definition flags_agree (s : App) : Prop :=
  (victory s = true -> gameOver s = true) /\
  (gameOver s = true -> gameActive s = false).

(** The payload of a turn can be applied: there is none, or the walk over
    it returns. *)
Definition payload_applies (fullText : string) : Prop :=
  truthy (extractJson fullText).1 = true -> completes (extractJson fullText).1.

End HandlerVocabulary.

(* ===================================================================== *)
(** ** Facts about texts *)
(* ===================================================================== *)

Lemma string_app_cons c a b : String c a +:+ b = String c (a +:+ b).
Proof. reflexivity. Qed.

Lemma string_app_nil_l s : "" +:+ s = s.
Proof. reflexivity. Qed.

Lemma string_app_nil_r s : s +:+ "" = s.
Proof. induction s as [|c s IH]; [done|]. by rewrite string_app_cons, IH. Qed.

Lemma string_app_assoc a b c : (a +:+ b) +:+ c = a +:+ b +:+ c.
Proof. induction a as [|x a IH]; [done|]. by rewrite !string_app_cons, IH. Qed.

Lemma string_app_length a b : String.length (a +:+ b) = String.length a + String.length b.
Proof. induction a as [|x a IH]; [done|]. rewrite string_app_cons. simpl. by rewrite IH. Qed.

Lemma strip_prefix_Some p s r : strip_prefix p s = Some r <-> s = p +:+ r.
Proof.
  revert s. induction p as [|a p IH]; intros s; simpl.
  - rewrite string_app_nil_l. split; congruence.
  - rewrite string_app_cons. destruct s as [|b s]; [split; discriminate|].
    destruct (decide (a = b)) as [->|Hne].
    + rewrite IH. split; [by intros ->|by intros [= ->]].
    + split; [discriminate|]. intros [= ? ?]. done.
Qed.

Lemma strip_prefix_app p r : strip_prefix p (p +:+ r) = Some r.
Proof. by apply strip_prefix_Some. Qed.



Lemma app_eq_app_le a b c d :
  a +:+ b = c +:+ d -> String.length c <= String.length a ->
  exists z, a = c +:+ z /\ d = z +:+ b.
Proof.
  revert a. induction c as [|x c IH]; intros a Hab Hlen.
  - exists a. by rewrite string_app_nil_l in *.
  - destruct a as [|y a]; [simpl in Hlen; lia|].
    rewrite !string_app_cons in Hab. injection Hab as -> Hab. simpl in Hlen.
    destruct (IH a Hab) as (z & -> & ->); [lia|]. by exists z.
Qed.

Lemma first_occurrence_nil p s suf :
  strip_prefix p s = Some suf -> forall c suf', first_occurrence p s c suf' -> c = "" /\ suf' = suf.
Proof.
  intros Hp c suf' [Hs Hmin]. apply strip_prefix_Some in Hp.
  specialize (Hmin "" suf Hp). destruct c; [|simpl in Hmin; lia].
  split; [done|]. rewrite string_app_nil_l in Hs. rewrite Hs in Hp. by apply (inj _) in Hp.
Qed.

Lemma first_occurrence_cons p a s c suf :
  strip_prefix p (String a s) = None ->
  first_occurrence p (String a s) c suf <->
  exists c', c = String a c' /\ first_occurrence p s c' suf.
Proof.
  intros Hp. split.
  - intros [Hs Hmin]. destruct c as [|x c'].
    { rewrite string_app_nil_l in Hs. apply strip_prefix_Some in Hs. congruence. }
    rewrite string_app_cons in Hs. injection Hs as <- ->. exists c'. split; [done|].
    split; [done|]. intros pre' suf' Hs'.
    specialize (Hmin (String a pre') suf'). rewrite string_app_cons, <- Hs' in Hmin.
    specialize (Hmin eq_refl). simpl in Hmin. lia.
  - intros (c' & -> & -> & Hmin). split; [done|]. intros pre' suf' Hs'.
    destruct pre' as [|x pre'].
    { rewrite string_app_nil_l in Hs'. apply strip_prefix_Some in Hs'. congruence. }
    rewrite !string_app_cons in Hs'. injection Hs' as _ Hs'.
    specialize (Hmin _ _ Hs'). simpl. lia.
Qed.

Lemma lazy_until_Some close s c :
  lazy_until close s = Some c <-> exists suf, first_occurrence close s c suf.
Proof.
  revert c. induction s as [|a s IH]; intros c; simpl.
  - destruct (strip_prefix close "") as [r|] eqn:E.
    + split.
      * intros [= <-]. exists r. apply strip_prefix_Some in E.
        split; [done|]. intros; simpl; lia.
      * intros [suf Hc]. by destruct (first_occurrence_nil _ _ _ E _ _ Hc) as [-> _].
    + split; [done|]. intros [suf [Hs _]]. destruct c; [|done].
      rewrite string_app_nil_l in Hs. apply strip_prefix_Some in Hs. congruence.
  - destruct (strip_prefix close (String a s)) as [r|] eqn:E.
    + split.
      * intros [= <-]. exists r. apply strip_prefix_Some in E.
        split; [done|]. intros; simpl; lia.
      * intros [suf Hc]. by destruct (first_occurrence_nil _ _ _ E _ _ Hc) as [-> _].
    + split.
      * destruct (lazy_until close s) as [c'|] eqn:El; [|done].
        intros [= <-]. destruct (proj1 (IH c') eq_refl) as [suf Hc].
        exists suf. apply first_occurrence_cons; eauto.
      * intros [suf Hc]. apply first_occurrence_cons in Hc as (c' & -> & Hc); [|done].
        assert (lazy_until close s = Some c') as -> by (apply IH; eauto). done.
Qed.

Lemma lazy_until_None close s :
  lazy_until close s = None -> forall c suf, s <> c +:+ close +:+ suf.
Proof.
  induction s as [|a s IH]; simpl.
  - destruct (strip_prefix close "") as [r|] eqn:E; [done|]. intros _ c suf Hs.
    destruct c; [|done]. rewrite string_app_nil_l in Hs. apply strip_prefix_Some in Hs. congruence.
  - destruct (strip_prefix close (String a s)) as [r|] eqn:E; [done|].
    destruct (lazy_until close s) as [c'|] eqn:El; [done|]. intros _ c suf Hs.
    destruct c as [|x c].
    + rewrite string_app_nil_l in Hs. apply strip_prefix_Some in Hs. congruence.
    + rewrite string_app_cons in Hs. injection Hs as _ Hs. by eapply IH.
Qed.

Lemma first_occurrence_fun p s c suf c' suf' :
  first_occurrence p s c suf -> first_occurrence p s c' suf' -> c = c'.
Proof.
  intros H1 H2.
  assert (lazy_until p s = Some c) as E1 by (apply lazy_until_Some; eauto).
  assert (lazy_until p s = Some c') as E2 by (apply lazy_until_Some; eauto).
  congruence.
Qed.

Lemma first_occurrence_app_r p s pre suf t :
  first_occurrence p s pre suf -> first_occurrence p (s +:+ t) pre (suf +:+ t).
Proof.
  intros [-> Hmin]. split; [by rewrite !string_app_assoc|].
  intros pre' suf' Hs.
  destruct (decide (String.length pre <= String.length pre')) as [|Hlt]; [done|].
  exfalso. rewrite <- (string_app_assoc pre') in Hs.
  apply app_eq_app_le in Hs as (z & Hz & _).
  - rewrite string_app_assoc in Hz. apply Hmin in Hz. lia.
  - rewrite !string_app_length. lia.
Qed.

Lemma match_here_Some s g :
  match_here s = Some g <->
  exists rest suf, s = fence_open +:+ rest /\ first_occurrence fence_close rest g suf.
Proof.
  unfold match_here. destruct (strip_prefix fence_open s) as [rest|] eqn:E.
  - apply strip_prefix_Some in E as ->. rewrite lazy_until_Some. split.
    + intros [suf Hg]. eauto.
    + intros (rest' & suf & Hr & Hg). apply (inj _) in Hr as <-. eauto.
  - split; [done|]. intros (rest & suf & -> & _). by rewrite strip_prefix_app in E.
Qed.

Lemma regex_match_Some text c :
  regex_match text = Some c <-> first_json_block text c.
Proof.
  revert c. induction text as [|a t IH]; intros c.
  - cbn [regex_match]. destruct (match_here "") as [g|] eqn:E.
    { apply match_here_Some in E as (? & ? & ? & _). done. }
    split; [done|]. intros (pre & rest & suf & [Hs _] & _). by destruct pre.
  - cbn [regex_match]. destruct (match_here (String a t)) as [g|] eqn:E.
    + pose proof E as (rest & suf & Ht & Hg)%match_here_Some. split.
      * intros [= <-]. exists "", rest, suf. split; [|done].
        split; [done|]. intros; simpl; lia.
      * intros (pre & rest' & suf' & [Hs Hmin] & Hc).
        specialize (Hmin "" rest Ht). destruct pre; [|simpl in Hmin; lia].
        rewrite string_app_nil_l, Ht in Hs. apply (inj _) in Hs as <-.
        f_equal. eapply first_occurrence_fun; eauto.
    + rewrite IH. split.
      * intros (pre & rest & suf & [-> Hmin] & Hc).
        exists (String a pre), rest, suf. split; [|done]. split; [done|].
        intros pre' suf' Hs. destruct pre' as [|x pre'].
        -- exfalso. rewrite string_app_nil_l in Hs. unfold match_here in E.
           rewrite Hs, strip_prefix_app in E.
           rewrite <- (string_app_cons a pre), <- string_app_assoc in Hs.
           apply app_eq_app_le in Hs as (z & _ & ->).
           2:{ rewrite string_app_length. simpl. lia. }
           destruct Hc as [-> _]. eapply lazy_until_None in E. apply E.
           rewrite <- string_app_assoc. reflexivity.
        -- rewrite !string_app_cons in Hs. injection Hs as _ Hs. apply Hmin in Hs. simpl; lia.
      * intros (pre & rest & suf & [Hs Hmin] & Hc). destruct pre as [|x pre].
        { rewrite string_app_nil_l in Hs.
          assert (match_here (String a t) = Some c) by (apply match_here_Some; eauto).
          congruence. }
        rewrite string_app_cons in Hs. injection Hs as <- ->. exists pre, rest, suf.
        split; [|done]. split; [done|]. intros pre' suf' Hs.
        specialize (Hmin (String a pre') suf'). rewrite string_app_cons, <- Hs in Hmin.
        specialize (Hmin eq_refl). simpl in Hmin. lia.
Qed.

Lemma regex_match_None text :
  regex_match text = None <-> forall c, ~ first_json_block text c.
Proof.
  split.
  - intros E c Hc%regex_match_Some. congruence.
  - intros Hno. destruct (regex_match text) as [c|] eqn:E; [|done].
    apply regex_match_Some in E. by apply Hno in E.
Qed.

Lemma first_json_block_app_r text c later :
  first_json_block text c -> first_json_block (text +:+ later) c.
Proof.
  intros (pre & rest & suf & Hopen & Hclose).
  exists pre, (rest +:+ later), (suf +:+ later).
  split; by apply first_occurrence_app_r.
Qed.

(* ===================================================================== *)
(** ** JSON Extractor *)
(* ===================================================================== *)

Section Extractor.
Context `{JSONCodec}.

(** C2. Provided [JSON.parse] rejects the empty text, as it does, the
    extractor returns the value parsed from the content of the first fenced
    block tagged as JSON when there is such a block and the content parses;
    it returns [null] when the content does not parse and when there is no
    such block; and whatever follows the first block, further blocks
    included, changes nothing of the result. *)
Theorem extractJson_first_block (Hempty : JSON_parse "" = None) (text : string) :
  (forall content, first_json_block text content ->
     (extractJson text).1 = default VNull (JSON_parse content)) /\
  ((forall content, ~ first_json_block text content) ->
     (extractJson text).1 = VNull) /\
  (forall content later, first_json_block text content ->
     extractJson (text +:+ later) = extractJson text).
Proof.
  assert (Hblock : forall t content, first_json_block t content ->
            extractJson t =
              match JSON_parse content with
              | Some v => (v, [])
              | None => (VNull,
                         if bool_decide (content = "") then []
                         else [console_error "Failed to parse extracted JSON"])
              end).
  { intros t content Hb%regex_match_Some. unfold extractJson. rewrite Hb.
    case_bool_decide as Hc; [subst content; by rewrite Hempty|].
    by destruct (JSON_parse content). }
  split; [|split].
  - intros content Hb. rewrite (Hblock _ _ Hb). by destruct (JSON_parse content).
  - intros Hno%regex_match_None. unfold extractJson. by rewrite Hno.
  - intros content later Hb.
    rewrite (Hblock _ _ Hb), (Hblock _ _ (first_json_block_app_r _ _ later Hb)). done.
Qed.

End Extractor.

(* ===================================================================== *)
(** ** Status Applier *)
(* ===================================================================== *)

Section EffFacts.
Context {A E : Type}.
Implicit Types a b : Eff E.

Lemma seq_done_l b : seq done b = b.
Proof. by destruct b. Qed.

Lemma seq_Normal a b : (seq a b).2 = Normal <-> a.2 = Normal /\ b.2 = Normal.
Proof. destruct a as [ca []], b as [cb []]; unfold seq; simpl; intuition congruence. Qed.

Lemma seq_calls a b : a.2 = Normal -> (seq a b).1 = a.1 ++ b.1.
Proof. destruct a as [ca []]; unfold seq; simpl; congruence. Qed.

Lemma seq_calls_sound a b u : u ∈ (seq a b).1 -> u ∈ a.1 \/ u ∈ b.1.
Proof.
  destruct a as [ca []]; unfold seq; simpl; [|by left].
  rewrite elem_of_app. tauto.
Qed.

Lemma seq_calls_l a b u : u ∈ a.1 -> u ∈ (seq a b).1.
Proof.
  destruct a as [ca []]; unfold seq; simpl; [|done].
  rewrite elem_of_app. tauto.
Qed.

Lemma seq_calls_r a b u : a.2 = Normal -> u ∈ b.1 -> u ∈ (seq a b).1.
Proof. intros Ha Hu. rewrite seq_calls by done. apply elem_of_app. by right. Qed.

Lemma forEach_Normal (f : A -> Eff E) l :
  (forEach f l).2 = Normal <-> Forall (fun x => (f x).2 = Normal) l.
Proof.
  induction l as [|x l IH]; simpl.
  - split; [constructor|done].
  - rewrite seq_Normal, Forall_cons, IH. done.
Qed.

Lemma forEach_calls_sound (f : A -> Eff E) l u :
  u ∈ (forEach f l).1 -> exists x, x ∈ l /\ u ∈ (f x).1.
Proof.
  induction l as [|x l IH]; simpl.
  - by intros ?%elem_of_nil.
  - intros [Hu|Hu]%seq_calls_sound.
    + exists x. split; [left|done].
    + destruct (IH Hu) as (y & ? & ?). exists y. split; [by right|done].
Qed.

Lemma forEach_calls_complete (f : A -> Eff E) l x u :
  (forEach f l).2 = Normal -> x ∈ l -> u ∈ (f x).1 -> u ∈ (forEach f l).1.
Proof.
  induction l as [|y l IH]; simpl.
  - by intros _ ?%elem_of_nil.
  - intros [Hy Hl]%seq_Normal [->|Hx]%elem_of_cons Hu.
    + by apply seq_calls_l.
    + apply seq_calls_r; auto.
Qed.

Lemma forEach_calls_nil (f : A -> Eff E) l :
  Forall (fun x => f x = done) l -> forEach f l = done.
Proof.
  induction 1 as [|x l Hx _ IH]; simpl; [done|]. by rewrite Hx, IH.
Qed.

End EffFacts.

Section ApplierFacts.
Context `{JSNumber}.

Lemma value_ind' (P : value -> Prop) :
  P VUndefined -> P VNull -> (forall b, P (VBool b)) -> (forall n, P (VNumber n)) ->
  (forall s, P (VString s)) ->
  (forall l, Forall P l -> P (VArray l)) ->
  (forall fs, Forall (fun kv => P kv.2) fs -> P (VObject fs)) ->
  forall v, P v.
Proof.
  intros Hu Hn Hb Hnum Hs Ha Ho.
  fix IH 1. intros [| |b|n|s|l|fs].
  - exact Hu.
  - exact Hn.
  - exact (Hb b).
  - exact (Hnum n).
  - exact (Hs s).
  - apply Ha. induction l as [|e l IHl]; constructor; [apply IH|apply IHl].
  - apply Ho. induction fs as [|[k e] fs IHfs]; constructor; [apply IH|apply IHfs].
Qed.

Lemma applyStatusesFromData_array l :
  applyStatusesFromData (VArray l) = forEach applyStatusesFromData l.
Proof. reflexivity. Qed.

Lemma applyStatusesFromData_object fs :
  applyStatusesFromData (VObject fs) =
  seq (record_pair "system" fs)
    (seq (record_pair "name" fs) (seq (walk_systems fs) (walk_values fs))).
Proof.
  cbn [applyStatusesFromData truthy negb]. do 2 f_equal. f_equal.
  - unfold walk_systems. induction fs as [|[k v] fs IH]; [done|].
    cbn [get]. destruct (decide ("systems" = k)); [done|]. apply IH.
  - unfold walk_values, Object_values.
    induction fs as [|[k v] fs IH]; [done|]. cbn [fmap list_fmap snd forEach].
    by rewrite IH.
Qed.

Lemma applyStatusesFromData_primitive v :
  isArray v = false -> (forall fs, v <> VObject fs) -> applyStatusesFromData v = done.
Proof.
  destruct v as [| |[]|n|s|l|fs]; intros Ha Ho; try done.
  - cbn. by destruct (number_truthy n).
  - cbn. by case_bool_decide.
  - by destruct (Ho fs).
Qed.

Lemma get_elem_of k fs :
  get k fs = VUndefined \/ (k, get k fs) ∈ fs.
Proof.
  induction fs as [|[k' v] fs IH]; [by left|]. cbn [get].
  destruct (decide (k = k')) as [->|]; [right; left|].
  destruct IH as [IH|IH]; [by left|right; by right].
Qed.

Lemma record_pair_elem id fs u :
  u ∈ (record_pair id fs).1 <->
  truthy (get id fs) = true /\ truthy (get "status" fs) = true /\
  JS_String (get id fs) = Some u.1 /\ JS_String (get "status" fs) = Some u.2.
Proof.
  unfold record_pair, call_updateSystemStatus.
  destruct (truthy (get id fs)), (truthy (get "status" fs)); cbn;
    try (split; [by intros ?%elem_of_nil|by intros (? & ? & _)]).
  destruct (JS_String (get id fs)) as [k|], (JS_String (get "status" fs)) as [v|]; cbn;
    try (split; [by intros ?%elem_of_nil|by intros (_ & _ & ? & ?)]).
  rewrite list_elem_of_singleton. destruct u as [k' v']. cbn.
  split; [by intros [= -> ->]|by intros (_ & _ & [= ->] & [= ->])].
Qed.

Lemma record_pair_Normal id fs :
  (record_pair id fs).2 = Normal ->
  truthy (get id fs) = true -> truthy (get "status" fs) = true ->
  exists k v, JS_String (get id fs) = Some k /\ JS_String (get "status" fs) = Some v.
Proof.
  unfold record_pair, call_updateSystemStatus. intros Hn H1 H2.
  rewrite H1, H2 in Hn. cbn in Hn.
  destruct (JS_String (get id fs)) as [k|]; [|done].
  destruct (JS_String (get "status" fs)) as [v|]; [|done]. eauto.
Qed.

Lemma pending_sound data u : u ∈ pending data -> records data u.
Proof.
  unfold pending. revert u.
  induction data as [| |b|n|s|l IH|fs IH] using value_ind'; intros u;
    try (rewrite applyStatusesFromData_primitive by done; by intros ?%elem_of_nil).
  - rewrite applyStatusesFromData_array.
    intros (e & He & Hu)%forEach_calls_sound.
    rewrite Forall_forall in IH. eapply records_element; eauto.
  - rewrite applyStatusesFromData_object. rewrite Forall_forall in IH.
    intros [Hu|[Hu|[Hu|Hu]%seq_calls_sound]%seq_calls_sound]%seq_calls_sound.
    + apply record_pair_elem in Hu as (? & ? & ? & ?). destruct u. by apply records_system.
    + apply record_pair_elem in Hu as (? & ? & ? & ?). destruct u. by apply records_name.
    + unfold walk_systems in Hu. destruct (get "systems" fs) as [| | | | |l|] eqn:Hg;
        try by apply elem_of_nil in Hu.
      destruct (get_elem_of "systems" fs) as [Hx|Hx]; [congruence|]. rewrite Hg in Hx.
      pose proof (IH _ Hx u Hu) as Hr. cbn [snd] in Hr.
      inversion Hr; subst. eapply records_systems; eauto.
    + unfold walk_values in Hu. apply forEach_calls_sound in Hu as (x & Hx & Hu).
      destruct (typeof_object x) eqn:Ht; [|by apply elem_of_nil in Hu].
      unfold Object_values in Hx. apply list_elem_of_fmap in Hx as ([k x'] & -> & Hx).
      eapply records_value; [|done|by apply (IH _ Hx)].
      apply list_elem_of_fmap. by exists (k, x').
Qed.

Lemma completes_object fs :
  completes (VObject fs) <->
  (record_pair "system" fs).2 = Normal /\ (record_pair "name" fs).2 = Normal /\
  (walk_systems fs).2 = Normal /\ (walk_values fs).2 = Normal.
Proof.
  unfold completes. rewrite applyStatusesFromData_object, !seq_Normal. done.
Qed.

Lemma pending_object fs :
  completes (VObject fs) ->
  pending (VObject fs) =
  (record_pair "system" fs).1 ++ (record_pair "name" fs).1 ++
  (walk_systems fs).1 ++ (walk_values fs).1.
Proof.
  intros (H1 & H2 & H3 & H4)%completes_object.
  unfold pending. rewrite applyStatusesFromData_object.
  rewrite !seq_calls; try done.
Qed.

Lemma completes_element l e : completes (VArray l) -> e ∈ l -> completes e.
Proof.
  unfold completes. rewrite applyStatusesFromData_array, forEach_Normal, Forall_forall.
  auto.
Qed.

Lemma completes_value fs x :
  completes (VObject fs) -> x ∈ Object_values fs -> typeof_object x = true ->
  completes x.
Proof.
  intros (_ & _ & _ & Hv)%completes_object Hx Ht. unfold walk_values in Hv.
  rewrite forEach_Normal, Forall_forall in Hv. specialize (Hv x Hx).
  by rewrite Ht in Hv.
Qed.

Lemma pending_element l e u : completes (VArray l) -> e ∈ l -> u ∈ pending e -> u ∈ pending (VArray l).
Proof.
  unfold completes, pending. rewrite applyStatusesFromData_array.
  intros. by eapply forEach_calls_complete.
Qed.

Lemma pending_value fs x u :
  completes (VObject fs) -> x ∈ Object_values fs -> typeof_object x = true ->
  u ∈ pending x -> u ∈ pending (VObject fs).
Proof.
  intros Hc Hx Ht Hu. rewrite pending_object by done.
  apply completes_object in Hc as (_ & _ & _ & Hv).
  rewrite !elem_of_app. do 3 right. unfold walk_values in *.
  eapply forEach_calls_complete; [done..|]. by rewrite Ht.
Qed.

Lemma pending_complete data u : records data u -> completes data -> u ∈ pending data.
Proof.
  induction 1 as [fs k v Hs Ht Hk Hv|fs k v Hs Ht Hk Hv|fs l e u Hg He Hr IH
                 |fs x u Hx Ht Hr IH|l e u He Hr IH]; intros Hc.
  - rewrite pending_object by done. apply elem_of_app. left.
    by apply record_pair_elem.
  - rewrite pending_object by done. rewrite !elem_of_app. right; left.
    by apply record_pair_elem.
  - rewrite pending_object by done. rewrite !elem_of_app. do 2 right; left.
    apply completes_object in Hc as (_ & _ & Hsys & _).
    unfold walk_systems in *. rewrite Hg in *.
    eapply forEach_calls_complete; [done..|]. apply IH.
    rewrite forEach_Normal, Forall_forall in Hsys. by apply Hsys.
  - eapply pending_value; eauto using completes_value.
  - eapply pending_element; eauto using completes_element.
Qed.

Lemma subvalue_typeof_object fs x : subvalue (VObject fs) x -> typeof_object x = true.
Proof. by destruct 1. Qed.

Lemma subvalue_trans n m v : subvalue n m -> subvalue m v -> subvalue n v.
Proof.
  intros Hnm. induction 1 as [|e l He _ IH|k x fs Hx _ IH]; [done|..].
  - by eapply subvalue_element.
  - by eapply subvalue_field.
Qed.

(** A walk that returns has walked every object of the payload, and what an
    object records is among the calls of the whole walk. *)
Lemma subvalue_pending fs data :
  subvalue (VObject fs) data -> completes data ->
  completes (VObject fs) /\ forall u, u ∈ pending (VObject fs) -> u ∈ pending data.
Proof.
  induction 1 as [|e l He Hsub IH|k x fs' Hx Hsub IH]; intros Hc; [done|..].
  - destruct IH as [Hn Hu]; [by eapply completes_element|].
    split; [done|]. intros u Hin. eapply pending_element; eauto.
  - assert (x ∈ Object_values fs') as Hv.
    { apply list_elem_of_fmap. by exists (k, x). }
    pose proof (subvalue_typeof_object _ _ Hsub) as Ht.
    destruct IH as [Hn Hu]; [by eapply completes_value|].
    split; [done|]. intros u Hin. eapply pending_value; eauto.
Qed.

(** C1, amended. What the walk hands to [updateSystemStatus] is what
    [records] describes: at an object the pair ([system], [status]) when
    both hold truthy values and, whether or not that pair was recorded, the
    pair ([name], [status]) when both hold truthy values; the walk goes into
    each element of a [systems] array, into every property value whose
    [typeof] is ['object'], and into every element of an array. Every call
    made is such a pair; when the walk returns, every such pair is among the
    calls. An array with no object among its elements yields no call. *)
Theorem pending_iff_records :
  (forall data u, u ∈ pending data -> records data u) /\
  (forall data u, completes data -> records data u -> u ∈ pending data) /\
  (forall l, Forall (fun e => typeof_object e = false) l ->
     applyStatusesFromData (VArray l) = done).
Proof.
  split; [|split].
  - apply pending_sound.
  - intros data u Hc Hr. by apply pending_complete.
  - intros l Hl. rewrite applyStatusesFromData_array. apply forEach_calls_nil.
    eapply Forall_impl; [exact Hl|]. intros e He. cbn beta in He.
    apply applyStatusesFromData_primitive; [by destruct e|].
    intros fs ->. done.
Qed.

(** A payload in which no object has a truthy [status] yields no call. *)
Lemma falsy_status_no_call data :
  (forall fs, subvalue (VObject fs) data -> truthy (get "status" fs) = false) ->
  applyStatusesFromData data = done.
Proof.
  induction data as [| |b|n|s|l IH|fs IH] using value_ind'; intros Hst;
    try (by apply applyStatusesFromData_primitive).
  - rewrite applyStatusesFromData_array. apply forEach_calls_nil.
    rewrite Forall_forall in IH |- *. intros e He. apply IH; [done|].
    intros fs Hfs. apply Hst. by eapply subvalue_element.
  - rewrite applyStatusesFromData_object. rewrite Forall_forall in IH.
    assert (Hvals : forall k x, (k, x) ∈ fs -> applyStatusesFromData x = done).
    { intros k x Hx. apply (IH _ Hx). intros fs' Hfs'. apply Hst.
      by eapply subvalue_field. }
    unfold record_pair. rewrite (Hst fs) by constructor.
    rewrite !andb_false_r, !seq_done_l.
    assert (walk_systems fs = done) as ->.
    { unfold walk_systems. destruct (get "systems" fs) as [| | | | |l|] eqn:Hg; try done.
      destruct (get_elem_of "systems" fs) as [Hx|Hx]; [congruence|].
      rewrite Hg in Hx. apply (Hvals _ _ Hx). }
    rewrite seq_done_l. unfold walk_values. apply forEach_calls_nil.
    apply Forall_forall. intros x ([k x'] & -> & Hx)%list_elem_of_fmap.
    cbn [snd]. rewrite (Hvals _ _ Hx). by destruct (typeof_object x').
Qed.

End ApplierFacts.

(* ===================================================================== *)
(** ** Status Store *)
(* ===================================================================== *)

Section StoreFacts.
Context `{JSONCodec} `{JSString}.

Lemma assign_snoc props kv (m : gmap string value) :
  assign (props ++ [kv]) m = <[kv.1 := kv.2]> (assign props m).
Proof. unfold assign. by rewrite fold_left_app. Qed.

Lemma assign_union props (m : gmap string value) :
  assign props m = assign props ∅ ∪ m.
Proof.
  induction props as [|kv props IH] using rev_ind.
  - cbn. by rewrite (left_id_L ∅ (∪)).
  - rewrite !assign_snoc, IH. by rewrite insert_union_l.
Qed.

Lemma assign_lookup_is_Some props (m : gmap string value) k :
  is_Some (m !! k) -> is_Some (assign props m !! k).
Proof.
  intros Hk. rewrite assign_union. rewrite lookup_union_is_Some. by right.
Qed.

Lemma defaults_has_defaults : has_defaults defaultSystemStatuses.
Proof.
  intros k Hk. unfold default_keys in Hk.
  repeat (apply elem_of_cons in Hk as [->|Hk]; [by eexists|]).
  by apply elem_of_nil in Hk.
Qed.

Lemma loadStatuses_has_defaults w : has_defaults (loadStatuses w).1.
Proof.
  unfold loadStatuses.
  repeat (case_match; try apply defaults_has_defaults); cbn [fst].
  intros k Hk. apply assign_lookup_is_Some, defaults_has_defaults, Hk.
Qed.

Lemma updateSystemStatus_systemStatuses system status s :
  systemStatuses (updateSystemStatus system status s) =
  <[toUpperCase system := VString (toUpperCase status)]> (systemStatuses s).
Proof. reflexivity. Qed.

Lemma flush_snoc calls kv s :
  flush (calls ++ [kv]) s = updateSystemStatus kv.1 kv.2 (flush calls s).
Proof. unfold flush. by rewrite fold_left_app. Qed.

Lemma last_status_snoc K calls kv :
  last_status K (calls ++ [kv]) =
  if decide (toUpperCase kv.1 = K) then Some kv.2 else last_status K calls.
Proof. unfold last_status. by rewrite fold_left_app. Qed.

Lemma flush_lookup calls s K :
  systemStatuses (flush calls s) !! K =
  match last_status K calls with
  | Some v => Some (VString (toUpperCase v))
  | None => systemStatuses s !! K
  end.
Proof.
  induction calls as [|kv calls IH] using rev_ind; [done|].
  rewrite flush_snoc, last_status_snoc, updateSystemStatus_systemStatuses.
  destruct (decide (toUpperCase kv.1 = K)) as [<-|Hne].
  - by rewrite lookup_insert_eq.
  - by rewrite lookup_insert_ne.
Qed.

Lemma last_status_Some K calls v' :
  last_status K calls = Some v' ->
  exists k', (k', v') ∈ calls /\ toUpperCase k' = K.
Proof.
  induction calls as [|[k v] calls IH] using rev_ind; [done|].
  rewrite last_status_snoc. cbn [fst snd].
  destruct (decide (toUpperCase k = K)) as [<-|Hne].
  - intros [= ->]. exists k. split; [|done]. apply elem_of_app. right. left.
  - intros (k' & Hin & Hk)%IH. exists k'. split; [|done]. apply elem_of_app. by left.
Qed.

Lemma last_status_is_Some K calls k v :
  (k, v) ∈ calls -> toUpperCase k = K -> is_Some (last_status K calls).
Proof.
  induction calls as [|[k0 v0] calls IH] using rev_ind; [by intros ?%elem_of_nil|].
  rewrite last_status_snoc. cbn [fst snd]. intros Hin HK.
  destruct (decide (toUpperCase k0 = K)); [by eexists|].
  apply elem_of_app in Hin as [Hin|Hin]; [by apply IH|].
  apply list_elem_of_singleton in Hin as [= -> ->]. done.
Qed.

Lemma flush_shape calls s :
  exists m w, flush calls s = setSystemStatuses m (set_world w s).
Proof.
  induction calls as [|kv calls IH] using rev_ind.
  - exists (systemStatuses s), (world s). by destruct s.
  - destruct IH as (m & w & IH). rewrite flush_snoc, IH. eexists _, _. reflexivity.
Qed.

Lemma flush_has_defaults calls s :
  has_defaults (systemStatuses s) -> has_defaults (systemStatuses (flush calls s)).
Proof.
  intros Hs k Hk. rewrite flush_lookup. destruct (last_status k calls); [by eexists|].
  by apply Hs.
Qed.

(** C5, amended. Take a payload and, at any depth in it, an object whose
    [system] (or [name]) field and [status] field hold truthy values. When
    the walk returns, the pair of their texts is among the calls, and once
    the calls have run the map has an entry under the upper-cased
    identifier; its value is the upper-cased status of the last call made
    for that upper-cased key, which is the object's own status when every
    call for the key carries that status. One write puts the upper-cased
    status under the upper-cased key, replacing what was there, and the
    text of the whole map is in local storage right after, provided there
    is a window and [setItem] takes the text. *)
Theorem applied_status_entry :
  (forall data fs id (s : App),
     id = "system" \/ id = "name" ->
     subvalue (VObject fs) data -> completes data ->
     truthy (get id fs) = true -> truthy (get "status" fs) = true ->
     exists k v v',
       JS_String (get id fs) = Some k /\ JS_String (get "status" fs) = Some v /\
       (k, v) ∈ pending data /\
       last_status (toUpperCase k) (pending data) = Some v' /\
       systemStatuses (flush (pending data) s) !! toUpperCase k
         = Some (VString (toUpperCase v')) /\
       ((forall k0 v0, (k0, v0) ∈ pending data ->
           toUpperCase k0 = toUpperCase k -> v0 = v) -> v' = v)) /\
  (forall system status (s : App),
     let s' := updateSystemStatus system status s in
     systemStatuses s'
       = <[toUpperCase system := VString (toUpperCase status)]> (systemStatuses s) /\
     (window_defined (world s) = true ->
      storage_accepts (world s) (JSON_stringify (systemStatuses s')) = true ->
      item (world s') = Some (JSON_stringify (systemStatuses s')))).
Proof.
  split.
  - intros data fs id s Hid Hsub Hc Hi Hst.
    destruct (subvalue_pending _ _ Hsub Hc) as [Hn Hin].
    pose proof Hn as (Hsys & Hname & _)%completes_object.
    assert ((record_pair id fs).2 = Normal) as Hrec by (by destruct Hid as [-> | ->]).
    destruct (record_pair_Normal _ _ Hrec Hi Hst) as (k & v & Hk & Hv).
    assert ((k, v) ∈ pending data) as Hkv.
    { apply Hin. rewrite pending_object by done. rewrite !elem_of_app.
      destruct Hid as [-> | ->]; [left|right; left]; by apply record_pair_elem. }
    destruct (last_status_is_Some (toUpperCase k) _ _ _ Hkv eq_refl) as [v' Hlast].
    exists k, v, v'. repeat split; try done.
    + by rewrite flush_lookup, Hlast.
    + intros Hsame. destruct (last_status_Some _ _ _ Hlast) as (k' & Hk' & Hup).
      by eapply Hsame.
  - intros system status s s'. split; [done|]. intros Hw Hacc.
    subst s'. unfold updateSystemStatus in *. cbn in *.
    unfold persistStatuses. by rewrite Hw, Hacc.
Qed.


(** C7, amended. [loadStatuses] returns the default map, and no error,
    in each of these cases; it logs a warning in the second and the fourth
    and nothing in the first and the third:
    - there is no [window];
    - reading local storage throws;
    - nothing is stored under the key, or the empty text;
    - the stored text does not parse. *)
Theorem loadStatuses_fallback (w : World) :
  (window_defined w = false -> loadStatuses w = (defaultSystemStatuses, w)) /\
  (window_defined w = true -> storage_readable w = false ->
     loadStatuses w
       = (defaultSystemStatuses, log (console_warn "Failed to load system statuses") w)) /\
  (window_defined w = true -> storage_readable w = true ->
     item w = None \/ item w = Some "" ->
     loadStatuses w = (defaultSystemStatuses, w)) /\
  (forall stored, window_defined w = true -> storage_readable w = true ->
     item w = Some stored -> stored <> "" -> JSON_parse stored = None ->
     loadStatuses w
       = (defaultSystemStatuses, log (console_warn "Failed to load system statuses") w)).
Proof.
  unfold loadStatuses. repeat split.
  - by intros ->.
  - by intros -> ->.
  - intros -> -> [-> | ->]; [done|]. cbn. by rewrite bool_decide_eq_true_2.
  - intros stored -> -> -> Hne ->. cbn. by rewrite bool_decide_eq_false_2.
Qed.

End StoreFacts.

(* ===================================================================== *)
(** ** Session and timer *)
(* ===================================================================== *)

Section SessionFacts.
Context `{JSONCodec} `{JSString}.


Lemma apply_extracted_shape fullText s :
  exists d m w,
    (apply_extracted fullText s).1
      = setSystemStatuses m (set_world w (setCurrentSystemData d s)).
Proof.
  unfold apply_extracted. destruct (extractJson fullText) as [extracted logged].
  destruct (truthy extracted); cbn [fst].
  - destruct (flush_shape (applyStatusesFromData extracted).1
                (setCurrentSystemData extracted
                   (set_world (fold_left (fun w e => log e w) logged (world s)) s)))
      as (m & w & ->).
    eexists _, _, _. reflexivity.
  - exists (currentSystemData s), (systemStatuses s),
      (fold_left (fun w e => log e w) logged (world s)).
    by destruct s.
Qed.

Lemma apply_extracted_has_defaults fullText s :
  has_defaults (systemStatuses s) ->
  has_defaults (systemStatuses (apply_extracted fullText s).1).
Proof.
  unfold apply_extracted. destruct (extractJson fullText) as [extracted logged].
  destruct (truthy extracted); cbn [fst]; [|done].
  intros Hs. by apply flush_has_defaults.
Qed.

Lemma step_has_defaults s s' :
  step s s' -> has_defaults (systemStatuses s) -> has_defaults (systemStatuses s').
Proof.
  destruct 1; try done.
  - intros Hs. unfold tick, timer_callback. repeat case_match; exact Hs.
  - intros _. apply loadStatuses_has_defaults.
  - intros Hs%(apply_extracted_has_defaults t). unfold startGame_complete.
    by destruct (apply_extracted t s) as [s1 []].
  - intros Hs%(apply_extracted_has_defaults t). unfold handleSend_complete.
    destruct (apply_extracted t s) as [s1 []]; [|done]. by case_match.
Qed.

Lemma initialApp_has_defaults w : has_defaults (systemStatuses (initialApp w)).
Proof.
  apply loadStatuses_has_defaults.
Qed.

Lemma reachable_has_defaults w s : reachable w s -> has_defaults (systemStatuses s).
Proof.
  unfold reachable. revert s. apply rtc_ind_r.
  - apply initialApp_has_defaults.
  - intros s1 s2 _ Hstep IH. by eapply step_has_defaults.
Qed.

(** ** The timer *)

Lemma endGame_intervals b s : one_timer s -> intervals (endGame b s) = ∅.
Proof.
  intros Hone. unfold endGame, clear_timerRef. cbn.
  destruct (timerRef s) as [id|] eqn:Hid.
  - apply set_eq. intros x. rewrite elem_of_difference, elem_of_singleton.
    split; [|by intros ?%elem_of_empty]. intros [Hx Hne]. apply Hone in Hx. congruence.
  - apply set_eq. intros x. split; [|by intros ?%elem_of_empty].
    intros Hx%Hone. congruence.
Qed.

Lemma one_timer_frame s s' :
  intervals s' = intervals s -> timerRef s' = timerRef s -> one_timer s -> one_timer s'.
Proof. unfold one_timer. intros -> ->. done. Qed.

Lemma endGame_one_timer b s : one_timer s -> one_timer (endGame b s).
Proof.
  intros Hone id. rewrite endGame_intervals by done. by intros ?%elem_of_empty.
Qed.

Lemma startTimer_one_timer s : one_timer s -> one_timer (startTimer s).
Proof.
  intros Hone id. unfold startTimer, clear_timerRef.
  destruct (timerRef s) as [old|] eqn:Hold; cbn.
  - rewrite elem_of_union, elem_of_singleton, elem_of_difference, elem_of_singleton.
    intros [->|[Hx Hne]]; [done|]. apply Hone in Hx. congruence.
  - rewrite elem_of_union, elem_of_singleton.
    intros [->|Hx]; [done|]. apply Hone in Hx. congruence.
Qed.

Lemma timer_callback_one_timer s : one_timer s -> one_timer (timer_callback s).
Proof.
  intros Hone. unfold timer_callback. case_match; [|done].
  apply (one_timer_frame (endGame false s)); [done..|]. by apply endGame_one_timer.
Qed.

Lemma apply_extracted_one_timer t s : one_timer s -> one_timer (apply_extracted t s).1.
Proof.
  destruct (apply_extracted_shape t s) as (d & m & w & ->). done.
Qed.

Lemma step_one_timer s s' : step s s' -> one_timer s -> one_timer s'.
Proof.
  destruct 1; try done.
  - unfold tick. case_match; [apply timer_callback_one_timer|done].
  - intros Hs%(apply_extracted_one_timer t). unfold startGame_complete.
    destruct (apply_extracted t s) as [s1 []]; [by apply startTimer_one_timer|done].
  - intros Hs%(apply_extracted_one_timer t). unfold handleSend_complete.
    destruct (apply_extracted t s) as [s1 []]; [|done].
    case_match; [by apply endGame_one_timer|done].
Qed.

Lemma reachable_one_timer w s : reachable w s -> one_timer s.
Proof.
  unfold reachable. revert s. apply rtc_ind_r.
  - intros id. by intros ?%elem_of_empty.
  - intros s1 s2 _ Hstep IH. by eapply step_one_timer.
Qed.

(** C9. The status map has the three default keys [PROPULSION],
    [LIFE SUPPORT] and [NAVIGATION] at the first render, after every
    [loadStatuses], and in every state the component can reach; a status
    update removes no key at all. *)
Theorem default_keys_kept :
  (forall w, has_defaults (systemStatuses (initialApp w))) /\
  (forall w, has_defaults (loadStatuses w).1) /\
  (forall system status (s : App) k,
     is_Some (systemStatuses s !! k) ->
     is_Some (systemStatuses (updateSystemStatus system status s) !! k)) /\
  (forall w s, reachable w s -> has_defaults (systemStatuses s)).
Proof.
  split; [|split; [|split]].
  - apply initialApp_has_defaults.
  - apply loadStatuses_has_defaults.
  - intros system status s k Hk. rewrite updateSystemStatus_systemStatuses.
    rewrite lookup_insert_is_Some. destruct (decide (toUpperCase system = k)); auto.
  - apply reachable_has_defaults.
Qed.

(** C10, amended. The recognised fields are tested for truthiness, not
    for being there. A falsy [status] (the empty text, [0], [null], a
    missing field) stops both updates of a node; a falsy [system] stops the
    ([system], [status]) update and a falsy [name] the ([name], [status])
    update, and leaves the other one alone: when the other identifier and
    the status are truthy and convert to the texts [k] and [v], the call
    for ([k], [v]) is made, it is among the calls of the walk over the
    node, and once the calls have run the map has an entry under the
    upper-cased [k]. A payload in which no object has a truthy [status]
    yields no call, and running its calls changes nothing; so it is with
    the object whose [system] is [POWER] and whose [status] is the empty
    text. *)
Theorem falsy_field_suppresses_its_pair :
  (forall fs, truthy (get "status" fs) = false ->
     record_pair "system" fs = done /\ record_pair "name" fs = done) /\
  (forall fs, truthy (get "system" fs) = false -> record_pair "system" fs = done) /\
  (forall fs, truthy (get "name" fs) = false -> record_pair "name" fs = done) /\
  (forall fs id other k v (s : App),
     (other = "system" /\ id = "name") \/ (other = "name" /\ id = "system") ->
     truthy (get other fs) = false ->
     truthy (get id fs) = true -> truthy (get "status" fs) = true ->
     JS_String (get id fs) = Some k -> JS_String (get "status" fs) = Some v ->
     record_pair other fs = done /\ record_pair id fs = call (k, v) /\
     (k, v) ∈ pending (VObject fs) /\
     is_Some (systemStatuses (flush (pending (VObject fs)) s) !! toUpperCase k)) /\
  (forall data (s : App),
     (forall fs, subvalue (VObject fs) data -> truthy (get "status" fs) = false) ->
     pending data = [] /\ flush (pending data) s = s) /\
  pending (VObject [("system", VString "POWER"); ("status", VString "")]) = [].
Proof.
  split; [|split; [|split; [|split; [|split]]]].
  - intros fs Hst. unfold record_pair. by rewrite Hst, !andb_false_r.
  - intros fs Hsys. unfold record_pair. by rewrite Hsys.
  - intros fs Hname. unfold record_pair. by rewrite Hname.
  - intros fs id other k v s Hids Hother Hid Hst Hk Hv.
    assert (record_pair other fs = done) as Hdone.
    { unfold record_pair. by rewrite Hother. }
    assert (record_pair id fs = call (k, v)) as Hcall.
    { unfold record_pair, call_updateSystemStatus. by rewrite Hid, Hst, Hk, Hv. }
    assert ((k, v) ∈ pending (VObject fs)) as Hin.
    { unfold pending. rewrite applyStatusesFromData_object.
      destruct Hids as [[-> ->]|[-> ->]].
      - rewrite Hdone, seq_done_l. apply seq_calls_l. rewrite Hcall.
        by apply list_elem_of_singleton.
      - apply seq_calls_l. rewrite Hcall. by apply list_elem_of_singleton. }
    split; [done|]. split; [done|]. split; [done|].
    rewrite flush_lookup.
    destruct (last_status_is_Some (toUpperCase k) _ _ _ Hin eq_refl) as [v' ->].
    by eexists.
  - intros data s Hst. unfold pending. by rewrite falsy_status_no_call.
  - reflexivity.
Qed.

(** ** Countdown *)

Lemma setTimeLeft_setTimeLeft x y (s : App) : setTimeLeft x (setTimeLeft y s) = setTimeLeft x s.
Proof. reflexivity. Qed.

Lemma tick_running id (s : App) :
  id ∈ intervals s -> tick id s = timer_callback s.
Proof. intros Hid. unfold tick. by rewrite bool_decide_eq_true_2. Qed.

Lemma tick_cancelled id (s : App) : id ∉ intervals s -> tick id s = s.
Proof. intros Hid. unfold tick. by rewrite bool_decide_eq_false_2. Qed.

Lemma ticks_cancelled id n (s : App) : id ∉ intervals s -> ticks id n s = s.
Proof.
  intros Hid. induction n as [|n IH]; [done|]. cbn. by rewrite tick_cancelled.
Qed.

Lemma ticks_add id n m (s : App) : ticks id (n + m) s = ticks id m (ticks id n s).
Proof. revert s. induction n as [|n IH]; intros s; [done|]. cbn. by rewrite IH. Qed.

Lemma ticks_countdown id (s : App) (n : nat) :
  id ∈ intervals s -> (Z.of_nat n < timeLeft s)%Z ->
  ticks id n s = setTimeLeft (timeLeft s - Z.of_nat n) s.
Proof.
  revert s. induction n as [|n IH]; intros s Hid Hn.
  - cbn. rewrite Z.sub_0_r. by destruct s.
  - cbn [ticks]. rewrite tick_running by done. unfold timer_callback.
    destruct (Z.leb_spec (timeLeft s) 1); [lia|].
    rewrite IH; [|done|cbn; lia].
    rewrite setTimeLeft_setTimeLeft. cbn [timeLeft setTimeLeft]. f_equal. lia.
Qed.

(** The state the expiring tick leaves. *)
Lemma ticks_expiry id (s : App) (n : nat) :
  id ∈ intervals s -> (0 < timeLeft s)%Z -> Z.of_nat n = timeLeft s ->
  ticks id n s = setTimeLeft 0 (endGame false s).
Proof.
  intros Hid Hpos Hn. destruct n as [|n]; [lia|].
  replace (S n) with (n + 1) by lia. rewrite ticks_add.
  rewrite (ticks_countdown id s n); [|done|lia]. cbn [ticks].
  rewrite (tick_running id (setTimeLeft _ s) Hid).
  unfold timer_callback. cbn [timeLeft setTimeLeft].
  destruct (Z.leb_spec (timeLeft s - Z.of_nat n) 1); [|lia]. reflexivity.
Qed.

(** C3. Start the timer with 600 seconds left and let its interval tick.
    A tick with more than one second left takes one second off and ends
    nothing; a tick with one second or less left sets the time to zero and
    calls [endGame(false)]: the game is over and not won. After [n < 600]
    ticks there are [600 - n] seconds left, the interval is scheduled and
    [endGame] has not been called; after 600 ticks or more the time is
    zero, the interval is cancelled, the game is over, not won and not
    active, and [endGame] has been called once, with [false]. The time left
    is never negative. *)
Theorem countdown_to_expiry (s : App) (Hstart : timeLeft s = GAME_TIME_LIMIT) :
  let id := nextInterval s in
  let run n := ticks id n (startTimer s) in
  (forall t : App,
     ((1 < timeLeft t)%Z ->
        timeLeft (timer_callback t) = (timeLeft t - 1)%Z /\
        gameOver (timer_callback t) = gameOver t /\
        endGameCalls (timer_callback t) = endGameCalls t) /\
     ((timeLeft t <= 1)%Z ->
        timeLeft (timer_callback t) = 0%Z /\
        gameOver (timer_callback t) = true /\
        victory (timer_callback t) = false /\
        gameActive (timer_callback t) = false /\
        endGameCalls (timer_callback t) = endGameCalls t ++ [false])) /\
  (forall n, n < 600 ->
     timeLeft (run n) = (600 - Z.of_nat n)%Z /\
     (id ∈ intervals (run n)) /\
     gameOver (run n) = gameOver s /\
     endGameCalls (run n) = endGameCalls s) /\
  (forall n, 600 <= n ->
     timeLeft (run n) = 0%Z /\
     (id ∉ intervals (run n)) /\
     gameOver (run n) = true /\ victory (run n) = false /\ gameActive (run n) = false /\
     endGameCalls (run n) = endGameCalls s ++ [false]) /\
  (forall n, (0 <= timeLeft (run n))%Z).
Proof.
  intros id run.
  assert (Hid : id ∈ intervals (startTimer s)).
  { unfold startTimer. cbn. apply elem_of_union. left. by apply elem_of_singleton. }
  assert (Htime : timeLeft (startTimer s) = 600%Z) by exact Hstart.
  assert (Hlow : forall n, n < 600 ->
            run n = setTimeLeft (600 - Z.of_nat n) (startTimer s)).
  { intros n Hn. unfold run. rewrite ticks_countdown by (done || lia). by rewrite Htime. }
  assert (Hhigh : forall n, 600 <= n ->
            run n = setTimeLeft 0 (endGame false (startTimer s))).
  { intros n Hn. unfold run. replace n with (600 + (n - 600)) by lia.
    rewrite ticks_add, (ticks_expiry id (startTimer s) 600) by (done || lia).
    apply ticks_cancelled. unfold endGame, clear_timerRef. cbn.
    rewrite elem_of_difference, elem_of_singleton. tauto. }
  split; [|split; [|split]].
  - intros t. unfold timer_callback. split; intros Ht.
    + destruct (Z.leb_spec (timeLeft t) 1); [lia|]. done.
    + destruct (Z.leb_spec (timeLeft t) 1); [|lia]. done.
  - intros n Hn. rewrite (Hlow n Hn). done.
  - intros n Hn. rewrite (Hhigh n Hn). repeat split.
    unfold endGame, clear_timerRef. cbn.
    rewrite elem_of_difference, elem_of_singleton. tauto.
  - intros n. destruct (decide (n < 600)) as [Hn|Hn].
    + rewrite (Hlow n Hn). cbn. lia.
    + rewrite (Hhigh n) by lia. done.
Qed.

(** ** The two handlers *)

Lemma replace_last_snoc m m' (l : list Message) : replace_last m' (l ++ [m]) = l ++ [m'].
Proof.
  unfold replace_last. destruct (l ++ [m]) eqn:E.
  - by destruct l.
  - by rewrite <- E, removelast_last.
Qed.

Lemma consume_startGame_chunk t chunks (s : App) :
  exists ms, (consume startGame_chunk t chunks s).2 = setMessages ms s.
Proof.
  revert t s. induction chunks as [|c chunks IH]; intros t s.
  - exists (messages s). by destruct s.
  - cbn [consume]. destruct (IH (t +:+ default "" c) (startGame_chunk (t +:+ default "" c) s))
      as [ms ->]. by exists ms.
Qed.

Lemma consume_handleSend_chunk t chunks (s : App) l m :
  messages s = l ++ [m] ->
  exists m', (consume handleSend_chunk t chunks s).2 = setMessages (l ++ [m']) s /\
             (m' = m \/ exists t', m' = mkMessage model t').
Proof.
  revert t s m. induction chunks as [|c chunks IH]; intros t s m Hm.
  - exists m. split; [|by left]. rewrite <- Hm. by destruct s.
  - cbn [consume].
    destruct (IH (t +:+ default "" c) (handleSend_chunk (t +:+ default "" c) s)
                 (mkMessage model (t +:+ default "" c))) as (m' & -> & Hm').
    { unfold handleSend_chunk. cbn. by rewrite Hm, replace_last_snoc. }
    exists m'. split; [done|]. right. destruct Hm' as [->|Hm']; eauto.
Qed.

Lemma consume_steps_startGame t chunks (s : App) :
  rtc step s (consume startGame_chunk t chunks s).2.
Proof.
  revert t s. induction chunks as [|c chunks IH]; intros t s; [done|].
  cbn [consume]. eapply rtc_l; [apply step_startGame_chunk|apply IH].
Qed.

Lemma consume_steps_handleSend t chunks (s : App) :
  rtc step s (consume handleSend_chunk t chunks s).2.
Proof.
  revert t s. induction chunks as [|c chunks IH]; intros t s; [done|].
  cbn [consume]. eapply rtc_l; [apply step_handleSend_chunk|apply IH].
Qed.

(** Each handler run in one go is a run of the event loop. *)
Lemma startGame_steps created reply (s : App) : rtc step s (startGame created reply s).
Proof.
  unfold startGame. eapply rtc_r; [|apply step_finally].
  eapply rtc_l; [apply step_startGame_begin|].
  destruct created; cbn [negb]; [|apply rtc_once, step_startGame_catch].
  eapply rtc_l; [apply step_startGame_created|].
  destruct reply as [|chunks completed]; [apply rtc_once, step_startGame_catch|].
  eapply rtc_l; [apply step_startGame_open|].
  pose proof (consume_steps_startGame "" chunks
                (startGame_open (set_chatRef (Some chat_session) (startGame_begin s)))) as Hc.
  destruct (consume _ _ _ _) as [fullText s2]. cbn [snd] in Hc.
  eapply rtc_trans; [exact Hc|].
  destruct completed; apply rtc_once; constructor.
Qed.

Lemma handleSend_steps reply (s : App) : rtc step s (handleSend reply s).
Proof.
  unfold handleSend. destruct (can_send s) eqn:Hcan; cbn [negb]; [|done].
  eapply rtc_r; [|apply step_finally].
  eapply rtc_l; [by apply step_handleSend_begin|].
  destruct (chatRef (handleSend_begin s)); [|apply rtc_once, step_handleSend_catch].
  destruct reply as [|chunks completed]; [apply rtc_once, step_handleSend_catch|].
  eapply rtc_l; [apply step_handleSend_open|].
  pose proof (consume_steps_handleSend "" chunks
                (handleSend_open (handleSend_begin s))) as Hc.
  destruct (consume _ _ _ _) as [fullText s2]. cbn [snd] in Hc.
  eapply rtc_trans; [exact Hc|].
  destruct completed; apply rtc_once; constructor.
Qed.

Lemma startGame_reachable w created reply (s : App) :
  reachable w s -> reachable w (startGame created reply s).
Proof. intros Hr. eapply rtc_trans; [exact Hr|apply startGame_steps]. Qed.

Lemma handleSend_reachable w reply (s : App) :
  reachable w s -> reachable w (handleSend reply s).
Proof. intros Hr. eapply rtc_trans; [exact Hr|apply handleSend_steps]. Qed.


(** C8, amended. A failed request ends in one synthetic model message and
    an input box that works again, never in an exception that leaves the
    handler.
    - [handleSend], the guard passed: when there is no chat, the request is
      rejected or the stream breaks off, the transcript afterwards is the
      one before, the user's message, the model message streamed so far if
      the stream had opened, and the message [ERROR: COMMUNICATION
      INTERRUPTED. RETRY COMMAND.] at the end.
    - [startGame]: when the chat cannot be created, the request is rejected
      or the stream breaks off, the transcript afterwards is the message
      [ERROR: NEURAL LINK FAILURE. REBOOT REQUIRED.] alone.
    - In both, [loading] is false again and the input box is enabled.
    - The [catch] and [finally] of each handler do this in any state. *)
Theorem link_failure_surfaces :
  (forall (s : App) reply,
     can_send s = true -> chatRef s = None \/ link_failure reply = true ->
     let s' := handleSend reply s in
     exists streamed,
       messages s' = messages s ++ [mkMessage user (input s)] ++ streamed ++
         [mkMessage model "ERROR: COMMUNICATION INTERRUPTED. RETRY COMMAND."] /\
       (streamed = [] \/ exists t, streamed = [mkMessage model t]) /\
       loading s' = false /\ input_enabled s' = true) /\
  (forall (s : App) created reply,
     created = false \/ link_failure reply = true ->
     let s' := startGame created reply s in
     messages s' = [mkMessage model "ERROR: NEURAL LINK FAILURE. REBOOT REQUIRED."] /\
     loading s' = false /\ input_enabled s' = true) /\
  (forall s : App,
     messages (finally (handleSend_catch s)) =
       messages s ++ [mkMessage model "ERROR: COMMUNICATION INTERRUPTED. RETRY COMMAND."] /\
     messages (finally (startGame_catch s)) =
       [mkMessage model "ERROR: NEURAL LINK FAILURE. REBOOT REQUIRED."] /\
     loading (finally (handleSend_catch s)) = false /\
     loading (finally (startGame_catch s)) = false /\
     gameActive (finally (handleSend_catch s)) = gameActive s /\
     gameActive (finally (startGame_catch s)) = gameActive s).
Proof.
  split; [|split].
  - intros s reply Hcan Hfail s'. subst s'. unfold handleSend. rewrite Hcan. cbn [negb].
    assert (Hact : gameActive s = true).
    { unfold can_send in Hcan. by destruct (gameActive s); rewrite ?andb_false_r in Hcan. }
    unfold input_enabled.
    change (chatRef (handleSend_begin s)) with (chatRef s).
    destruct (chatRef s) as [c|] eqn:Hchat.
    + destruct Hfail as [|Hfail]; [done|].
      destruct reply as [|chunks completed].
      * exists []. split; [cbn; by rewrite <- app_assoc|].
        split; [by left|]. cbn. by rewrite Hact.
      * cbn in Hfail. destruct completed; [done|].
        destruct (consume_handleSend_chunk "" chunks (handleSend_open (handleSend_begin s))
                    (messages s ++ [mkMessage user (input s)]) (mkMessage model ""))
          as (m' & Hc & Hm'); [done|].
        destruct (consume _ _ _ _) as [fullText s2]. cbn [snd] in Hc. subst s2.
        exists [m']. split; [cbn; by rewrite <- !app_assoc|].
        split; [|cbn; by rewrite Hact].
        right. destruct Hm' as [->|[t ->]]; eauto.
    + exists []. split; [cbn; by rewrite <- app_assoc|].
      split; [by left|]. cbn. by rewrite Hact.
  - intros s created reply Hfail s'. subst s'. unfold startGame, input_enabled.
    destruct created; cbn [negb]; [|done].
    destruct Hfail as [|Hfail]; [done|].
    destruct reply as [|chunks completed]; [done|].
    cbn in Hfail. destruct completed; [done|].
    destruct (consume_startGame_chunk "" chunks
                (startGame_open (set_chatRef (Some chat_session) (startGame_begin s))))
      as [ms Hc].
    destruct (consume _ _ _ _) as [fullText s2]. cbn [snd] in Hc. by subst s2.
  - intros s. repeat split.
Qed.

End SessionFacts.

(* ===================================================================== *)
(** ** Further facts about texts *)
(* ===================================================================== *)

Lemma trimStart_blank t : trimStart t = "" <-> blank t.
Proof.
  unfold blank, every. induction t as [|c t IH]; cbn.
  - split; [constructor|done].
  - destruct (is_space c) eqn:Hc.
    + rewrite IH, Forall_cons. tauto.
    + split; [done|]. intros [Hc' _]%Forall_cons. congruence.
Qed.

Lemma trimEnd_cons_nonspace c t : is_space c = false -> trimEnd (String c t) <> "".
Proof. intros Hc. cbn. rewrite Hc. by destruct (trimEnd t). Qed.

Lemma trimStart_head t : trimStart t = "" \/ exists c r, trimStart t = String c r /\ is_space c = false.
Proof.
  induction t as [|c t IH]; cbn; [by left|].
  destruct (is_space c) eqn:Hc; [done|]. right. eauto.
Qed.

Lemma trim_blank t : trim t = "" <-> blank t.
Proof.
  rewrite <- trimStart_blank. unfold trim.
  destruct (trimStart_head t) as [->|(c & r & -> & Hc)]; [done|].
  split; [|done]. intros Hn. by apply trimEnd_cons_nonspace in Hn.
Qed.

Lemma every_nil P : every P "".
Proof. constructor. Qed.

Lemma every_cons P c s : every P (String c s) <-> P c = true /\ every P s.
Proof.
  unfold every. cbn. split.
  - intros Hall. by inversion Hall.
  - intros [Hc Hs]. by constructor.
Qed.

Lemma every_app P a b : every P (a +:+ b) <-> every P a /\ every P b.
Proof.
  induction a as [|c a IH].
  - rewrite string_app_nil_l. split; [by split; [apply every_nil|]|tauto].
  - rewrite string_app_cons, !every_cons, IH. tauto.
Qed.

(** *** Removing matches *)

Lemma remove_matches_skip opn cls x y :
  remove_matches opn cls (String.length x) (x +:+ y) = remove_matches opn cls 0 y.
Proof. induction x as [|c x IH]; [by destruct y|]. rewrite string_app_cons. cbn. apply IH. Qed.

Lemma match_length_Some opn cls s n :
  match_length opn cls s = Some n <->
  exists rest group suf,
    s = opn +:+ rest /\ first_occurrence cls rest group suf /\
    n = String.length opn + String.length group + String.length cls.
Proof.
  unfold match_length. destruct (strip_prefix opn s) as [rest|] eqn:E.
  - apply strip_prefix_Some in E as ->.
    destruct (lazy_until cls rest) as [g|] eqn:El.
    + apply lazy_until_Some in El as [suf Hg]. split.
      * intros [= <-]. by exists rest, g, suf.
      * intros (rest' & g' & suf' & Hr & Hg' & ->). apply (inj _) in Hr as <-.
        by rewrite (first_occurrence_fun _ _ _ _ _ _ Hg Hg').
    + split; [done|]. intros (rest' & g' & suf' & Hr & Hg' & _).
      apply (inj _) in Hr as <-.
      assert (lazy_until cls rest = Some g') by (apply lazy_until_Some; eauto).
      congruence.
  - split; [done|]. intros (rest & g & suf & -> & _). by rewrite strip_prefix_app in E.
Qed.

(** A match at the start of the text goes, and the search goes on after it. *)
Lemma remove_matches_here opn cls rest group suf :
  opn <> "" -> first_occurrence cls rest group suf ->
  remove_matches opn cls 0 (opn +:+ rest) = remove_matches opn cls 0 suf.
Proof.
  intros Hopn Hg.
  assert (match_length opn cls (opn +:+ rest)
          = Some (String.length opn + String.length group + String.length cls)) as Hm.
  { apply match_length_Some. by exists rest, group, suf. }
  destruct Hg as [-> _].
  destruct opn as [|c opn]; [done|]. rewrite string_app_cons in *.
  cbn [remove_matches]. rewrite Hm. cbn [String.length Nat.add].
  rewrite <- !string_app_length, <- !string_app_assoc.
  apply remove_matches_skip.
Qed.

(** Where the opening literal does not stand, the character is kept. *)
Lemma remove_matches_keep opn cls c s :
  strip_prefix opn (String c s) = None ->
  remove_matches opn cls 0 (String c s) = String c (remove_matches opn cls 0 s).
Proof. intros Hp. cbn [remove_matches]. unfold match_length. by rewrite Hp. Qed.

Lemma remove_matches_before opn cls text pre rest :
  opn <> "" -> first_occurrence opn text pre rest ->
  remove_matches opn cls 0 text = pre +:+ remove_matches opn cls 0 (opn +:+ rest).
Proof.
  intros Hopn. revert text. induction pre as [|c pre IH]; intros text Hocc.
  - destruct Hocc as [-> _]. by rewrite !string_app_nil_l.
  - assert (text = String c (pre +:+ opn +:+ rest)) as -> by apply Hocc.
    assert (Hnone : strip_prefix opn (String c (pre +:+ opn +:+ rest)) = None).
    { destruct (strip_prefix opn _) as [r|] eqn:E; [|done].
      destruct (first_occurrence_nil _ _ _ E _ _ Hocc) as [? _]. done. }
    rewrite remove_matches_keep by done. rewrite string_app_cons. f_equal.
    apply IH. apply (first_occurrence_cons _ _ _ _ _ Hnone) in Hocc as (c' & [= <-] & Hocc).
    exact Hocc.
Qed.

(** A block goes: the text before the first opening literal stays, the
    block up to the first closing literal after it is dropped, and the
    search goes on in what follows. *)
Lemma remove_matches_block opn cls text pre rest group suf :
  opn <> "" -> first_occurrence opn text pre rest -> first_occurrence cls rest group suf ->
  remove_matches opn cls 0 text = pre +:+ remove_matches opn cls 0 suf.
Proof.
  intros Hopn Hpre Hg. rewrite (remove_matches_before _ _ _ _ _ Hopn Hpre).
  by rewrite (remove_matches_here _ _ _ _ _ Hopn Hg).
Qed.

Lemma absent_cons p c s : absent p (String c s) -> strip_prefix p (String c s) = None /\ absent p s.
Proof.
  intros Ha. split.
  - destruct (strip_prefix p _) as [r|] eqn:E; [|done].
    apply strip_prefix_Some in E. by destruct (Ha "" r).
  - intros pre suf ->. by destruct (Ha (String c pre) suf).
Qed.

Lemma remove_matches_absent opn cls s :
  absent opn s -> remove_matches opn cls 0 s = s.
Proof.
  induction s as [|c s IH]; [done|]. intros [Hnone Ha]%absent_cons.
  rewrite remove_matches_keep by done. by rewrite IH.
Qed.

Lemma remove_matches_no_match text :
  regex_match text = None ->
  remove_matches fence_open fence_close 0 text = text.
Proof.
  induction text as [|c t IH]; [done|]. cbn [regex_match remove_matches].
  unfold match_length, match_here.
  destruct (strip_prefix fence_open (String c t)) as [rest|]; [|by intros ->%IH].
  destruct (lazy_until fence_close rest); [done|]. by intros ->%IH.
Qed.

(** *** White space *)

Lemma trimStart_every P s : every P s -> every P (trimStart s).
Proof.
  induction s as [|c s IH]; [done|]. intros [Hc Hs]%every_cons. cbn.
  destruct (is_space c); [by apply IH|]. by apply every_cons.
Qed.

Lemma trimEnd_every P s : every P s -> every P (trimEnd s).
Proof.
  induction s as [|c s IH]; [done|]. intros [Hc Hs]%every_cons. cbn.
  specialize (IH Hs). destruct (trimEnd s) as [|d r].
  - destruct (is_space c); [apply every_nil|]. apply every_cons. split; [done|apply every_nil].
  - by apply every_cons.
Qed.

Lemma trimStart_fixed c s : is_space c = false -> trimStart (String c s) = String c s.
Proof. intros Hc. cbn. by rewrite Hc. Qed.

Lemma trimEnd_head c s :
  is_space c = false -> exists r, trimEnd (String c s) = String c r.
Proof. intros Hc. cbn. rewrite Hc. destruct (trimEnd s); eauto. Qed.

Lemma trimEnd_idemp s : trimEnd (trimEnd s) = trimEnd s.
Proof.
  induction s as [|c s IH]; [done|]. cbn.
  destruct (trimEnd s) as [|d r] eqn:E.
  - destruct (is_space c) eqn:Hc; [done|]. cbn. by rewrite Hc.
  - cbn [trimEnd] in *. by rewrite IH.
Qed.

Lemma trim_trimStart s : trimStart (trim s) = trim s.
Proof.
  unfold trim. destruct (trimStart_head s) as [->|(c & r & -> & Hc)]; [done|].
  destruct (trimEnd_head c r Hc) as [r' ->]. by apply trimStart_fixed.
Qed.

Lemma trim_trimEnd s : trimEnd (trim s) = trim s.
Proof. apply trimEnd_idemp. Qed.

Lemma trim_idemp s : trim (trim s) = trim s.
Proof. unfold trim at 1. by rewrite trim_trimStart, trim_trimEnd. Qed.

Lemma is_space_space : is_space " " = true.
Proof. reflexivity. Qed.

Lemma collapse_spaces_length b s :
  String.length (collapse_spaces b s) <= String.length s.
Proof.
  revert b. induction s as [|c s IH]; intros b; cbn; [done|].
  destruct (is_space c), b; cbn; pose proof (IH true); pose proof (IH false); lia.
Qed.

Lemma collapse_spaces_idemp b s :
  collapse_spaces b (collapse_spaces b s) = collapse_spaces b s.
Proof.
  revert b. induction s as [|c s IH]; intros b; [done|]. cbn.
  destruct (is_space c) eqn:Hc.
  - destruct b; [apply IH|]. cbn. by rewrite IH.
  - cbn. by rewrite Hc, IH.
Qed.

Lemma collapse_spaces_every P b s :
  P " "%char = true -> every P s -> every P (collapse_spaces b s).
Proof.
  intros Hsp. revert b. induction s as [|c s IH]; intros b; [done|].
  intros [Hc Hs]%every_cons. cbn.
  destruct (is_space c), b; try apply every_cons; auto.
Qed.

(** In a text that [collapse_spaces] leaves as it is, white space is a
    single space each time. *)
Lemma collapse_fixed_spaces b s :
  collapse_spaces b s = s ->
  every (fun c => negb (is_space c) || bool_decide (c = " "%char)) s.
Proof.
  revert b. induction s as [|c s IH]; intros b; [intros _; apply every_nil|].
  cbn. destruct (is_space c) eqn:Hc.
  - destruct b.
    + intros Heq. pose proof (collapse_spaces_length true s) as Hlen.
      rewrite Heq in Hlen. cbn in Hlen. lia.
    + intros [= <- Heq]. apply every_cons. split; [by rewrite orb_true_r|by eapply IH].
  - intros [= Heq]. apply every_cons. rewrite Hc. split; [done|by eapply IH].
Qed.

Lemma collapse_fixed_no_double b pre suf :
  collapse_spaces b (pre +:+ String " " (String " " suf))
  <> pre +:+ String " " (String " " suf).
Proof.
  revert b. induction pre as [|c pre IH]; intros b Heq.
  - rewrite !string_app_nil_l in Heq. cbn [collapse_spaces] in Heq.
    rewrite !is_space_space in Heq.
    pose proof (collapse_spaces_length true suf) as Hlen.
    destruct b; [rewrite Heq in Hlen|injection Heq as Heq; rewrite Heq in Hlen];
      cbn in Hlen; lia.
  - rewrite string_app_cons in Heq. cbn in Heq. destruct (is_space c).
    + destruct b.
      * pose proof (collapse_spaces_length true (pre +:+ String " " (String " " suf)))
          as Hlen.
        rewrite Heq in Hlen. cbn in Hlen. lia.
      * injection Heq as _ Heq. by eapply IH.
    + injection Heq as Heq. by eapply IH.
Qed.

(** Trimming keeps a text that [collapse_spaces] leaves as it is such a
    text. *)
Lemma collapse_start_same s :
  collapse_spaces true s = s -> collapse_spaces false s = s.
Proof.
  destruct s as [|c s]; [done|]. cbn. destruct (is_space c); [|done].
  intros Heq. pose proof (collapse_spaces_length true s) as Hlen.
  rewrite Heq in Hlen. cbn in Hlen. lia.
Qed.

Lemma collapse_run_no_leading_space s :
  collapse_spaces true s = s -> trimStart s = s.
Proof.
  destruct s as [|d s]; [done|]. cbn. destruct (is_space d); [|done].
  intros Heq. pose proof (collapse_spaces_length true s) as Hlen.
  rewrite Heq in Hlen. cbn in Hlen. lia.
Qed.

Lemma trimStart_collapse_fixed s :
  collapse_spaces false s = s -> collapse_spaces false (trimStart s) = trimStart s.
Proof.
  destruct s as [|c s]; [done|]. cbn. destruct (is_space c) eqn:Hc.
  - intros [= _ Heq]. rewrite (collapse_run_no_leading_space _ Heq).
    by apply collapse_start_same.
  - intros [= Heq]. cbn. by rewrite Hc, Heq.
Qed.

Lemma collapse_spaces_space c s :
  is_space c = true ->
  collapse_spaces false (String c s) = String " " (collapse_spaces true s).
Proof. intros Hc. cbn. by rewrite Hc. Qed.

Lemma collapse_spaces_other b c s :
  is_space c = false ->
  collapse_spaces b (String c s) = String c (collapse_spaces false s).
Proof. intros Hc. cbn. by rewrite Hc. Qed.

Lemma trimEnd_collapse_fixed b s :
  collapse_spaces b s = s -> collapse_spaces b (trimEnd s) = trimEnd s.
Proof.
  revert b. induction s as [|c s IH]; intros b; [done|]. cbn.
  destruct (is_space c) eqn:Hc.
  - destruct b.
    + intros Heq. pose proof (collapse_spaces_length true s) as Hlen.
      rewrite Heq in Hlen. cbn in Hlen. lia.
    + intros [= <- Heq]. specialize (IH true Heq).
      destruct (trimEnd s) as [|d r]; [done|].
      by rewrite collapse_spaces_space, IH.
  - intros [= Heq]. specialize (IH false Heq).
    destruct (trimEnd s) as [|d r]; rewrite collapse_spaces_other by done; [done|].
    by rewrite IH.
Qed.

Lemma trim_collapse_fixed s :
  collapse_spaces false s = s -> collapse_spaces false (trim s) = trim s.
Proof. intros Hs. by apply trimEnd_collapse_fixed, trimStart_collapse_fixed. Qed.

(** *** Markdown noise *)

Lemma remove_noise_every s : every (fun c => negb (is_markdown_noise c)) (remove_noise s).
Proof.
  induction s as [|c s IH]; [apply every_nil|]. cbn.
  destruct (is_markdown_noise c) eqn:Hc; [done|]. apply every_cons. by rewrite Hc.
Qed.

Lemma remove_noise_fixed s :
  every (fun c => negb (is_markdown_noise c)) s -> remove_noise s = s.
Proof.
  induction s as [|c s IH]; [done|]. intros [Hc Hs]%every_cons. cbn.
  destruct (is_markdown_noise c); [done|]. by rewrite IH.
Qed.

Lemma no_noise_no_fence s :
  every (fun c => negb (is_markdown_noise c)) s -> remove_matches "```" "```" 0 s = s.
Proof.
  induction s as [|c s IH]; [done|]. intros [Hc Hs]%every_cons.
  rewrite remove_matches_keep, IH; [done..|].
  cbn. destruct (decide ("`"%char = c)) as [<-|]; done.
Qed.

Lemma cleanSpeechText_clean t : spoken_clean (cleanSpeechText t).
Proof.
  unfold cleanSpeechText. split.
  - apply trimEnd_every, trimStart_every, collapse_spaces_every; [done|].
    apply remove_noise_every.
  - apply trim_collapse_fixed, collapse_spaces_idemp.
  - apply trim_idemp.
Qed.

Lemma spoken_clean_fixed r : spoken_clean r -> cleanSpeechText r = r.
Proof.
  intros [Hn Hc Ht]. unfold cleanSpeechText.
  by rewrite no_noise_no_fence, remove_noise_fixed, Hc, Ht.
Qed.

Lemma first_occurrence_clear c0 p x y :
  every (fun c => negb (bool_decide (c = c0))) x ->
  first_occurrence (String c0 p) (x +:+ String c0 p +:+ y) x y.
Proof.
  induction x as [|a x IH].
  - intros _. split; [done|]. intros; cbn; lia.
  - intros [Ha Hx]%every_cons. rewrite string_app_cons.
    apply first_occurrence_cons.
    + cbn. destruct (decide (c0 = a)) as [->|]; [|done].
      by rewrite bool_decide_eq_true_2 in Ha.
    + exists x. split; [done|]. by apply IH.
Qed.

Lemma remove_matches_clear_prefix c0 p cls x y :
  every (fun c => negb (bool_decide (c = c0))) x ->
  remove_matches (String c0 p) cls 0 (x +:+ y) = x +:+ remove_matches (String c0 p) cls 0 y.
Proof.
  induction x as [|a x IH]; [done|]. intros [Ha Hx]%every_cons.
  rewrite !string_app_cons, remove_matches_keep, IH; [done..|].
  cbn. destruct (decide (c0 = a)) as [->|]; [|done].
  by rewrite bool_decide_eq_true_2 in Ha.
Qed.

Lemma Number_toString_inj a b : Number_toString a = Number_toString b -> a = b.
Proof.
  unfold Number_toString. intros H.
  apply DecimalZ.to_int_inj.
  assert (forall z, Z.to_int z <> Decimal.Pos Decimal.Nil /\
                    Z.to_int z <> Decimal.Neg Decimal.Nil) as Hnn.
  { intros [|p|p]; cbn; split; try discriminate;
      intros [=E]; by apply DecimalPos.Unsigned.to_uint_nonnil in E. }
  apply (f_equal NilZero.int_of_string) in H.
  rewrite !NilZero.isi in H by apply Hnn. congruence.
Qed.

Lemma padStart_seconds (secs : Z) :
  (0 <= secs < 60)%Z ->
  padStart 2 "0" (Number_toString secs)
    = String (digit (secs / 10)) (String (digit (secs mod 10)) "").
Proof.
  intros H.
  assert (forallb (fun n =>
            bool_decide (padStart 2 "0" (Number_toString (Z.of_nat n))
              = String (digit (Z.of_nat n / 10))
                  (String (digit (Z.of_nat n mod 10)) "")))
            (List.seq 0 60) = true) as Hall by (vm_compute; reflexivity).
  rewrite forallb_forall in Hall.
  specialize (Hall (Z.to_nat secs)).
  rewrite Z2Nat.id in Hall by lia.
  eapply bool_decide_eq_true_1, Hall. apply in_seq. lia.
Qed.

Lemma string_app_inj_tail (a b c d : string) :
  String.length c = String.length d -> a +:+ c = b +:+ d -> a = b /\ c = d.
Proof.
  revert b. induction a as [|x a IH]; intros [|y b] Hl H;
    rewrite ?string_app_nil_l, ?string_app_cons in H.
  - done.
  - exfalso. apply (f_equal String.length) in H. cbn in H.
    rewrite string_app_length in H. lia.
  - exfalso. apply (f_equal String.length) in H. cbn in H.
    rewrite string_app_length in H. lia.
  - injection H as -> H. destruct (IH b Hl H) as [-> ->]. done.
Qed.

Lemma Number_toString_minutes (mins : Z) :
  (0 <= mins <= 10)%Z -> 1 <= String.length (Number_toString mins) <= 2.
Proof.
  intros H.
  assert (forallb (fun n =>
            let l := String.length (Number_toString (Z.of_nat n)) in
            (1 <=? l) && (l <=? 2))
            (List.seq 0 11) = true) as Hall by (vm_compute; reflexivity).
  rewrite forallb_forall in Hall.
  specialize (Hall (Z.to_nat mins)).
  rewrite Z2Nat.id in Hall by lia.
  cbv zeta in Hall. rewrite andb_true_iff, !Nat.leb_le in Hall.
  apply Hall, in_seq. lia.
Qed.

Lemma digit_inj a b : (0 <= a < 10)%Z -> (0 <= b < 10)%Z -> digit a = digit b -> a = b.
Proof.
  intros Ha Hb H. unfold digit in H.
  apply (f_equal nat_of_ascii) in H.
  rewrite !nat_ascii_embedding in H by lia. lia.
Qed.

(* ===================================================================== *)
(** ** Further properties of the session *)
(* ===================================================================== *)

Section SessionProperties.
Context `{JSONCodec} `{JSString}.

Lemma apply_extracted_frame t (s : App) :
  let s1 := (apply_extracted t s).1 in
  messages s1 = messages s /\ input s1 = input s /\ timeLeft s1 = timeLeft s /\
  gameActive s1 = gameActive s /\ gameStarted s1 = gameStarted s /\
  gameOver s1 = gameOver s /\ victory s1 = victory s /\ loading s1 = loading s /\
  chatRef s1 = chatRef s /\ timerRef s1 = timerRef s /\ intervals s1 = intervals s /\
  nextInterval s1 = nextInterval s /\ endGameCalls s1 = endGameCalls s.
Proof.
  intros s1. subst s1. destruct (apply_extracted_shape t s) as (d & m & w & ->).
  repeat split.
Qed.

Lemma step_timeLeft (s s' : App) :
  step s s' -> (0 <= timeLeft s <= GAME_TIME_LIMIT)%Z ->
  (0 <= timeLeft s' <= GAME_TIME_LIMIT)%Z.
Proof.
  unfold GAME_TIME_LIMIT. destruct 1; try done.
  - intros Hs. unfold tick, timer_callback.
    case_bool_decide; [|done]. destruct (Z.leb_spec (timeLeft s) 1); cbn; lia.
  - intros Hs. unfold startGame_complete.
    destruct (apply_extracted_frame t s) as (_ & _ & Ht & _).
    destruct (apply_extracted t s) as [s1 []]; cbn in *; lia.
  - intros Hs. unfold handleSend_complete.
    destruct (apply_extracted_frame t s) as (_ & _ & Ht & _).
    destruct (apply_extracted t s) as [s1 []]; [|cbn in *; lia].
    case_match; cbn in *; lia.
Qed.

(** X1. In every state the component reaches, the time left lies between
    zero and [GAME_TIME_LIMIT], and so does the number of seconds the
    success screen reports, [GAME_TIME_LIMIT - timeLeft]. *)
Theorem timeLeft_bounded (w : World) (s : App) (Hreach : reachable w s) :
  (0 <= timeLeft s <= GAME_TIME_LIMIT)%Z /\
  (0 <= GAME_TIME_LIMIT - timeLeft s <= GAME_TIME_LIMIT)%Z.
Proof.
  assert (0 <= timeLeft s <= GAME_TIME_LIMIT)%Z as Hb; [|lia].
  revert s Hreach. apply rtc_ind_r.
  - cbn. unfold GAME_TIME_LIMIT. lia.
  - intros s1 s2 _ Hstep IH. by eapply step_timeLeft.
Qed.

Lemma step_flags_agree (s s' : App) : step s s' -> flags_agree s -> flags_agree s'.
Proof.
  unfold flags_agree. destruct 1; try done.
  - intros Hs. unfold tick, timer_callback. case_bool_decide; [|done].
    case_match; [done|exact Hs].
  - intros Hs. unfold startGame_complete.
    destruct (apply_extracted_frame t s) as (_ & _ & _ & Ha & _ & Ho & Hv & _).
    destruct (apply_extracted t s) as [s1 []]; cbn in *; by rewrite Ha, Ho, Hv.
  - intros Hs. unfold handleSend_complete.
    destruct (apply_extracted_frame t s) as (_ & _ & _ & Ha & _ & Ho & Hv & _).
    destruct (apply_extracted t s) as [s1 []]; [|cbn in *; by rewrite Ha, Ho, Hv].
    case_match; [done|]. cbn in *. by rewrite Ha, Ho, Hv.
Qed.

Lemma reachable_flags_agree w (s : App) : reachable w s -> flags_agree s.
Proof.
  revert s. apply rtc_ind_r.
  - by split.
  - intros s1 s2 _ Hstep IH. by eapply step_flags_agree.
Qed.

(** X2. In every state the component reaches, a game that is won is over,
    and a game that is over is not active: the input box and the send
    button are disabled, and [handleSend] changes nothing, whatever the
    model would answer. *)
Theorem game_over_blocks_sending (w : World) (s : App) (Hreach : reachable w s) :
  (victory s = true -> gameOver s = true) /\
  (gameOver s = true ->
     gameActive s = false /\ input_enabled s = false /\ submit_disabled s = true /\
     forall reply, handleSend reply s = s).
Proof.
  destruct (reachable_flags_agree _ _ Hreach) as [Hv Ho]. split; [done|].
  intros Hover. specialize (Ho Hover). unfold input_enabled, submit_disabled, handleSend, can_send.
  rewrite Ho. repeat split. intros reply. by rewrite andb_false_r.
Qed.

(** X3. In every state the component reaches, an interval that runs is the
    one [timerRef] holds, so at most one runs; and after [startTimer] the
    interval it has created is the only one, and [timerRef] holds it. *)
Theorem one_interval_at_most (w : World) (s : App) (Hreach : reachable w s) :
  (forall id, id ∈ intervals s -> timerRef s = Some id) /\
  size (intervals s) <= 1 /\
  intervals (startTimer s) = {[nextInterval s]} /\
  timerRef (startTimer s) = Some (nextInterval s).
Proof.
  pose proof (reachable_one_timer _ _ Hreach) as Hone.
  assert (Hsub : forall id0, timerRef s = Some id0 -> intervals s ⊆ {[id0]}).
  { intros id0 Hid x Hx. apply Hone in Hx. apply elem_of_singleton. congruence. }
  split; [exact Hone|]. split; [|split; [|done]].
  - destruct (timerRef s) as [id0|] eqn:Hid.
    + pose proof (subseteq_size _ _ (Hsub id0 eq_refl)) as Hsz.
      by rewrite size_singleton in Hsz.
    + assert (intervals s = ∅) as ->; [|rewrite size_empty; lia].
      apply set_eq. intros x. split; [|by intros ?%elem_of_empty].
      intros Hx%Hone. congruence.
  - unfold startTimer, clear_timerRef. cbn. apply set_eq. intros x.
    rewrite elem_of_union, !elem_of_singleton. split; [|by left].
    intros [->|Hx]; [done|]. exfalso.
    destruct (timerRef s) as [id0|] eqn:Hid.
    + apply elem_of_difference in Hx as [Hx Hne]. apply Hone in Hx.
      apply Hne, elem_of_singleton. congruence.
    + apply Hone in Hx. congruence.
Qed.

(** X4. After [endGame], called in a state the component reaches, no
    interval callback has any effect, however often and for whatever
    interval it fires: the state stays what [endGame] left, with the time
    left it had. *)
Theorem clock_stops_at_game_end (w : World) (s : App) (Hreach : reachable w s) :
  forall isVictory id n,
    ticks id n (endGame isVictory s) = endGame isVictory s /\
    timeLeft (ticks id n (endGame isVictory s)) = timeLeft s.
Proof.
  intros isVictory id n.
  rewrite ticks_cancelled; [done|].
  rewrite endGame_intervals by (by eapply reachable_one_timer).
  apply not_elem_of_empty.
Qed.

(** X5. The send button is disabled exactly when the guard of [handleSend]
    turns the call away. [handleSend] changes nothing when the input is
    white space only, when the game is not active, or while a reply is
    loading; and when it changes the state, the input had a character that
    is not white space, the game was active and nothing was loading. *)
Theorem blank_input_is_not_sent :
  (forall s : App, submit_disabled s = negb (can_send s)) /\
  (forall (s : App) reply,
     blank (input s) \/ gameActive s = false \/ loading s = true ->
     handleSend reply s = s) /\
  (forall (s : App) reply,
     handleSend reply s <> s ->
     ~ blank (input s) /\ gameActive s = true /\ loading s = false).
Proof.
  assert (Hguard : forall s : App,
            can_send s = false <->
            blank (input s) \/ gameActive s = false \/ loading s = true).
  { intros s. unfold can_send. rewrite <- trim_blank.
    case_bool_decide as Ht; cbn; [tauto|].
    destruct (gameActive s), (loading s); cbn; intuition congruence. }
  split; [|split].
  - intros s. unfold submit_disabled, can_send.
    by destruct (gameActive s), (loading s), (bool_decide _).
  - intros s reply Hs%Hguard. unfold handleSend. by rewrite Hs.
  - intros s reply Hne. destruct (can_send s) eqn:Hcan.
    + unfold can_send in Hcan. rewrite <- trim_blank.
      case_bool_decide as Ht; [done|].
      destruct (gameActive s), (loading s); done.
    + exfalso. apply Hne. unfold handleSend. by rewrite Hcan.
Qed.

Lemma consume_fst f t chunks (s : App) :
  (consume f t chunks s).1 = t +:+ accumulated chunks.
Proof.
  revert t s. induction chunks as [|c chunks IH]; intros t s.
  - cbn. by rewrite string_app_nil_r.
  - cbn [consume accumulated foldr]. rewrite IH. by rewrite string_app_assoc.
Qed.

Lemma consume_handleSend_messages t chunks (s : App) l :
  messages s = l ++ [mkMessage model t] ->
  (consume handleSend_chunk t chunks s).2
    = setMessages (l ++ [mkMessage model (t +:+ accumulated chunks)]) s.
Proof.
  revert t s. induction chunks as [|c chunks IH]; intros t s Hm.
  - cbn. rewrite string_app_nil_r, <- Hm. by destruct s.
  - cbn [consume accumulated foldr]. rewrite IH.
    + by rewrite string_app_assoc.
    + unfold handleSend_chunk. cbn. by rewrite Hm, replace_last_snoc.
Qed.


Lemma apply_extracted_Normal fullText (s : App) :
  payload_applies fullText -> (apply_extracted fullText s).2 = Normal.
Proof.
  unfold payload_applies, apply_extracted, completes.
  destruct (extractJson fullText) as [extracted logged]. cbn [fst].
  destruct (truthy extracted); [|done]. intros Hc. by apply Hc.
Qed.

Lemma flush_systemStatuses_ext calls (s1 s2 : App) :
  systemStatuses s1 = systemStatuses s2 ->
  systemStatuses (flush calls s1) = systemStatuses (flush calls s2).
Proof. intros Hs. apply map_eq. intros K. by rewrite !flush_lookup, Hs. Qed.

Lemma apply_extracted_systemStatuses fullText (s : App) :
  systemStatuses (apply_extracted fullText s).1
    = systemStatuses (flush (pending (extractJson fullText).1) s).
Proof.
  unfold apply_extracted, pending.
  destruct (extractJson fullText) as [extracted logged]. cbn [fst].
  destruct (truthy extracted) eqn:Ht; cbn [fst].
  - by apply flush_systemStatuses_ext.
  - assert (applyStatusesFromData extracted = done) as ->; [|done].
    destruct extracted; cbn in *; try done; by rewrite Ht.
Qed.

(** X6. A follow-up turn that passes the guard, with a chat session open,
    a stream that ends without an error and a payload the applier walks to
    its end: the transcript grows by the input as the user typed it and by
    one model message, whose text is the fragments of the stream put
    together; the input box is emptied and loading is over; and the status
    map is the one before the turn with the pairs of the payload applied. *)
Theorem follow_up_turn_transcript (s : App) (chunks : list (option string))
    (Hcan : can_send s = true)
    (Hchat : chatRef s <> None)
    (Hpayload : payload_applies (accumulated chunks)) :
  let s' := handleSend (Streamed chunks true) s in
  messages s' = messages s ++ [mkMessage user (input s);
                               mkMessage model (accumulated chunks)] /\
  input s' = "" /\ loading s' = false /\
  systemStatuses s'
    = systemStatuses (flush (pending (extractJson (accumulated chunks)).1) s).
Proof.
  intros s'. subst s'. unfold handleSend. rewrite Hcan. cbn [negb].
  change (chatRef (handleSend_begin s)) with (chatRef s).
  destruct (chatRef s) as [c|]; [clear Hchat|done].
  pose proof (consume_fst handleSend_chunk "" chunks (handleSend_open (handleSend_begin s)))
    as Hfst.
  pose proof (consume_handleSend_messages "" chunks (handleSend_open (handleSend_begin s))
                (messages s ++ [mkMessage user (input s)]) eq_refl) as Hsnd.
  destruct (consume _ _ _ _) as [fullText s2]. cbn [fst snd] in *.
  rewrite string_app_nil_l in *. subst fullText s2.
  set (s2 := setMessages _ _). unfold handleSend_complete.
  pose proof (apply_extracted_Normal _ s2 Hpayload) as Hn.
  pose proof (apply_extracted_frame (accumulated chunks) s2) as (Hm & Hi & _ & _ & _ & _ & _ & _).
  pose proof (apply_extracted_systemStatuses (accumulated chunks) s2) as Hst.
  destruct (apply_extracted _ s2) as [s1 []]; [|done]. cbn [fst] in *.
  assert (systemStatuses s1
          = systemStatuses (flush (pending (extractJson (accumulated chunks)).1) s)) as Hst'.
  { rewrite Hst. by apply flush_systemStatuses_ext. }
  destruct (includes _ _); cbn; rewrite Hm, Hi; subst s2; cbn;
    by rewrite <- app_assoc.
Qed.





End SessionProperties.

(* ===================================================================== *)
(** ** Further properties of the statuses *)
(* ===================================================================== *)

Section WalkProperties.
Context `{JSNumber} `{JSString}.

Lemma last_status_app K (a b : list (string * string)) :
  last_status K (a ++ b) = match last_status K b with
                           | Some v => Some v
                           | None => last_status K a
                           end.
Proof.
  induction b as [|kv b IH] using rev_ind.
  - by rewrite app_nil_r.
  - rewrite app_assoc, !last_status_snoc, IH. by case_decide.
Qed.

Lemma last_status_None K (calls : list (string * string)) :
  last_status K calls = None <-> forall k v, (k, v) ∈ calls -> toUpperCase k <> K.
Proof.
  split.
  - intros Hn k v Hin Hk.
    destruct (last_status_is_Some K calls k v Hin Hk) as [x Hx]. congruence.
  - intros Hno. destruct (last_status K calls) as [v|] eqn:E; [|done].
    apply last_status_Some in E as (k & Hin & Hk). by destruct (Hno k v Hin).
Qed.

(** What the pass over [data.systems] records, the pass over the property
    values records again. *)
Lemma walk_systems_in_walk_values fs u :
  (walk_values fs).2 = Normal -> u ∈ (walk_systems fs).1 -> u ∈ (walk_values fs).1.
Proof.
  intros Hv. unfold walk_systems.
  destruct (get "systems" fs) as [| | | | |l|] eqn:Hg; try by intros ?%elem_of_nil.
  intros Hu. destruct (get_elem_of "systems" fs) as [Hx|Hx]; [congruence|].
  rewrite Hg in Hx. unfold walk_values.
  eapply (forEach_calls_complete _ _ (VArray l)); [exact Hv| |exact Hu].
  apply list_elem_of_fmap. by exists ("systems", VArray l).
Qed.

End WalkProperties.

Section StatusProperties.
Context `{JSONCodec} `{JSString}.

Lemma loadStatuses_stored (w : World) stored parsed :
  window_defined w = true -> storage_readable w = true ->
  item w = Some stored -> stored <> "" -> JSON_parse stored = Some parsed ->
  loadStatuses w = (assign (spread parsed) ∅ ∪ defaultSystemStatuses, w).
Proof.
  intros Hw Hr Hi Hne Hp. unfold loadStatuses. rewrite Hw, Hr, Hi. cbn [negb].
  rewrite bool_decide_eq_false_2 by done. by rewrite Hp, assign_union.
Qed.

Lemma defaults_lookup_Some k v :
  defaultSystemStatuses !! k = Some v -> k ∈ default_keys.
Proof.
  unfold defaultSystemStatuses, default_keys. intros Hk.
  apply elem_of_list_to_map_2 in Hk.
  repeat (apply elem_of_cons in Hk as [[= -> _]|Hk]; [set_solver|]).
  by apply elem_of_nil in Hk.
Qed.

Lemma union_defaults_id (m : gmap string value) :
  has_defaults m -> m ∪ defaultSystemStatuses = m.
Proof.
  intros Hm. apply map_eq. intros k. rewrite lookup_union.
  destruct (m !! k) as [x|] eqn:Hk; [by destruct (defaultSystemStatuses !! k)|].
  destruct (defaultSystemStatuses !! k) as [d|] eqn:Hd; [|done].
  apply defaults_lookup_Some, Hm in Hd as [x Hx]. congruence.
Qed.

(** X8. A status update survives a restart. In a state whose status map
    has the default keys, in a browser with a window whose storage can be
    read and takes the text of the updated map, and with a [JSON.parse]
    that rejects the empty text and reads that text back: after
    [updateSystemStatus] the map that [startGame] loads, and the one a
    fresh mount of the component loads, is the updated map itself; no
    default replaces an entry. *)
Theorem statuses_survive_reboot (s : App) (system status : string) (parsed : value)
    (Hdefaults : has_defaults (systemStatuses s))
    (Hwindow : window_defined (world s) = true)
    (Hreadable : storage_readable (world s) = true)
    (Hempty : JSON_parse "" = None)
    (Haccepts : storage_accepts (world s)
                  (JSON_stringify (systemStatuses (updateSystemStatus system status s)))
                = true)
    (Hparse : JSON_parse
                (JSON_stringify (systemStatuses (updateSystemStatus system status s)))
              = Some parsed)
    (Hprops : assign (spread parsed) ∅
              = systemStatuses (updateSystemStatus system status s)) :
  systemStatuses (startGame_begin (updateSystemStatus system status s))
    = systemStatuses (updateSystemStatus system status s) /\
  systemStatuses (initialApp (world (updateSystemStatus system status s)))
    = systemStatuses (updateSystemStatus system status s).
Proof.
  set (s' := updateSystemStatus system status s) in *.
  assert (Hne : JSON_stringify (systemStatuses s') <> "") by congruence.
  assert (Hload : (loadStatuses (world s')).1 = systemStatuses s').
  { erewrite loadStatuses_stored; [| | | |exact Hne|exact Hparse].
    - cbn [fst]. rewrite Hprops. apply union_defaults_id.
      intros k Hk. subst s'. rewrite updateSystemStatus_systemStatuses.
      apply lookup_insert_is_Some'. right. by apply Hdefaults.
    - subst s'. cbn. unfold persistStatuses. rewrite Hwindow. cbn [negb].
      by destruct (storage_accepts _ _).
    - subst s'. cbn. unfold persistStatuses. rewrite Hwindow. cbn [negb].
      by destruct (storage_accepts _ _).
    - subst s'. cbn in *. unfold persistStatuses. rewrite Hwindow. cbn [negb].
      by rewrite Haccepts. }
  split; exact Hload.
Qed.

Lemma updateSystemStatus_upper system status (s : App) :
  toUpperCase (toUpperCase system) = toUpperCase system ->
  toUpperCase (toUpperCase status) = toUpperCase status ->
  updateSystemStatus (toUpperCase system) (toUpperCase status) s
  = updateSystemStatus system status s.
Proof. intros Hk Hv. unfold updateSystemStatus. by rewrite Hk, Hv. Qed.

(** X9. The status map tells apart two system names, or two statuses, only
    when [toUpperCase] does. For a list of updates whose names and statuses
    [toUpperCase] maps to texts it leaves as they are, the list has the
    effect of the same list upper-cased; and of two updates in a row whose
    system names have the same upper-cased text, the map keeps the second
    alone. *)
Theorem statuses_ignore_case (calls : list (string * string)) (s : App)
    (Hupper : Forall (fun kv =>
                toUpperCase (toUpperCase kv.1) = toUpperCase kv.1 /\
                toUpperCase (toUpperCase kv.2) = toUpperCase kv.2) calls) :
  flush (map (fun kv => (toUpperCase kv.1, toUpperCase kv.2)) calls) s = flush calls s /\
  (forall k1 k2 v1 v2 (s0 : App),
     toUpperCase k1 = toUpperCase k2 ->
     systemStatuses (flush [(k1, v1); (k2, v2)] s0)
       = systemStatuses (flush [(k2, v2)] s0)).
Proof.
  split.
  - revert s. induction Hupper as [|[k v] calls [Hk Hv] _ IH]; intros s; [done|].
    cbn. rewrite updateSystemStatus_upper by done. apply IH.
  - intros k1 k2 v1 v2 s0 Hk. cbn. unfold updateSystemStatus. cbn.
    rewrite Hk. apply insert_insert_eq.
Qed.

(** X10. The pass of the applier over [data.systems] is redundant: for an
    object the applier walks to its end, the status map after all the
    pending updates is the map after those of the object's own pairs and of
    the pass over its property values. *)
Theorem systems_pass_adds_nothing (fs : list (string * value)) (s : App)
    (Hwalk : completes (VObject fs)) :
  systemStatuses (flush (pending (VObject fs)) s)
  = systemStatuses
      (flush ((record_pair "system" fs).1 ++ (record_pair "name" fs).1 ++
              (walk_values fs).1) s).
Proof.
  rewrite pending_object by done.
  pose proof Hwalk as (_ & _ & _ & Hv)%completes_object.
  apply map_eq. intros K. rewrite !flush_lookup.
  rewrite !last_status_app.
  destruct (last_status K (walk_values fs).1) as [v|] eqn:Hvals; [done|].
  assert (last_status K (walk_systems fs).1 = None) as ->; [|done].
  apply last_status_None. intros k v Hin.
  apply (proj1 (last_status_None K _) Hvals k v).
  by apply walk_systems_in_walk_values.
Qed.

Lemma fold_log_nil (w : World) : fold_left (fun w e => log e w) [] w = w.
Proof. done. Qed.

(** X11. A reply without a usable payload leaves the statuses alone. In
    each of four cases the applier does not throw, and the status map, the
    data of the dashboard and the stored item stay as they were:
    - the text has no JSON block;
    - the content of its first block is empty: [JSON.parse] is not called;
    - the content is not empty and does not parse;
    - the content parses to a falsy value ([null], [false], [0], the empty
      text).
    The console gets the one error [Failed to parse extracted JSON] in the
    third case, and nothing in the others. *)
Theorem turn_without_payload_changes_nothing (fullText : string) (s : App) :
  ((forall content, ~ first_json_block fullText content) ->
     (apply_extracted fullText s).2 = Normal /\
     systemStatuses (apply_extracted fullText s).1 = systemStatuses s /\
     currentSystemData (apply_extracted fullText s).1 = currentSystemData s /\
     world (apply_extracted fullText s).1 = world s) /\
  (first_json_block fullText "" ->
     (apply_extracted fullText s).2 = Normal /\
     systemStatuses (apply_extracted fullText s).1 = systemStatuses s /\
     currentSystemData (apply_extracted fullText s).1 = currentSystemData s /\
     world (apply_extracted fullText s).1 = world s) /\
  (forall content,
     first_json_block fullText content -> content <> "" ->
     JSON_parse content = None ->
     (apply_extracted fullText s).2 = Normal /\
     systemStatuses (apply_extracted fullText s).1 = systemStatuses s /\
     currentSystemData (apply_extracted fullText s).1 = currentSystemData s /\
     world (apply_extracted fullText s).1
       = log (console_error "Failed to parse extracted JSON") (world s)) /\
  (forall content parsed,
     first_json_block fullText content -> content <> "" ->
     JSON_parse content = Some parsed -> truthy parsed = false ->
     (apply_extracted fullText s).2 = Normal /\
     systemStatuses (apply_extracted fullText s).1 = systemStatuses s /\
     currentSystemData (apply_extracted fullText s).1 = currentSystemData s /\
     world (apply_extracted fullText s).1 = world s).
Proof.
  split; [|split; [|split]].
  - intros Hno%regex_match_None. unfold apply_extracted, extractJson. by rewrite Hno.
  - intros Hb%regex_match_Some. unfold apply_extracted, extractJson. by rewrite Hb.
  - intros content Hb%regex_match_Some Hne Hp.
    unfold apply_extracted, extractJson. rewrite Hb, bool_decide_eq_false_2 by done.
    by rewrite Hp.
  - intros content parsed Hb%regex_match_Some Hne Hp Ht.
    unfold apply_extracted, extractJson. rewrite Hb, bool_decide_eq_false_2 by done.
    by rewrite Hp, Ht.
Qed.

Lemma flush_cons kv calls (s : App) :
  flush (kv :: calls) s = flush calls (updateSystemStatus kv.1 kv.2 s).
Proof. done. Qed.

(** X12. Saving the statuses is best effort. Without a window a run of
    updates leaves storage and console alone; with a storage that takes
    nothing, the stored item stays, and the console gets one warning for
    each update; and in either case the status map in memory has every
    update, the last one for a system winning. *)
Theorem persistence_is_best_effort (calls : list (string * string)) (s : App) :
  (window_defined (world s) = false -> world (flush calls s) = world s) /\
  ((forall t, storage_accepts (world s) t = false) ->
     window_defined (world s) = true ->
     item (world (flush calls s)) = item (world s) /\
     console (world (flush calls s))
       = console (world s) ++
         replicate (length calls) (console_warn "Failed to persist statuses")) /\
  (forall K,
     systemStatuses (flush calls s) !! K
       = match last_status K calls with
         | Some v => Some (VString (toUpperCase v))
         | None => systemStatuses s !! K
         end).
Proof.
  split; [|split].
  - revert s. induction calls as [|kv calls IH]; intros s Hw; [done|].
    rewrite flush_cons, IH; unfold updateSystemStatus, persistStatuses; cbn;
      by rewrite Hw.
  - revert s. induction calls as [|kv calls IH]; intros s Hrej Hw.
    { cbn. by rewrite app_nil_r. }
    rewrite flush_cons.
    assert (Hworld : world (updateSystemStatus kv.1 kv.2 s)
                     = log (console_warn "Failed to persist statuses") (world s)).
    { unfold updateSystemStatus, persistStatuses. cbn. by rewrite Hw, Hrej. }
    destruct (IH (updateSystemStatus kv.1 kv.2 s)) as [Hi Hc].
    + intros t. rewrite Hworld. apply Hrej.
    + by rewrite Hworld.
    + rewrite Hi, Hc, Hworld. cbn. split; [done|]. by rewrite <- app_assoc.
  - intros K. apply flush_lookup.
Qed.

End StatusProperties.

(* ===================================================================== *)
(** ** Narration and the transcript *)
(* ===================================================================== *)

(** X13. The text handed to speech synthesis is tidy: it has none of the
    characters [` * _ > # -], its only white space is the space character,
    it has no two spaces in a row, and it neither starts nor ends with
    white space. *)
Theorem cleanSpeechText_is_tidy (t : string) :
  let r := cleanSpeechText t in
  every (fun c => negb (is_markdown_noise c)) r /\
  every (fun c => negb (is_space c) || bool_decide (c = " "%char)) r /\
  absent "  " r /\
  trimStart r = r /\ trimEnd r = r.
Proof.
  intros r. destruct (cleanSpeechText_clean t) as [Hn Hc Ht]. fold r in Hn, Hc, Ht.
  split; [done|]. split; [by eapply collapse_fixed_spaces|]. split; [|split].
  - intros pre suf Hr. apply (collapse_fixed_no_double false pre suf).
    change (String " " (String " " suf)) with ("  " +:+ suf). by rewrite <- Hr.
  - rewrite <- Ht. apply trim_trimStart.
  - rewrite <- Ht. apply trim_trimEnd.
Qed.

(** X14. [cleanSpeechText] changes nothing in a text it has cleaned, and
    the texts it leaves as they are, are the texts without markdown
    characters, with white space collapsed, and trimmed. *)
Theorem cleanSpeechText_idempotent :
  (forall t, cleanSpeechText (cleanSpeechText t) = cleanSpeechText t) /\
  (forall r, cleanSpeechText r = r <->
     every (fun c => negb (is_markdown_noise c)) r /\
     collapse_spaces false r = r /\ trim r = r).
Proof.
  split.
  - intros t. apply spoken_clean_fixed, cleanSpeechText_clean.
  - intros r. split.
    + intros Hr. destruct (cleanSpeechText_clean r) as [Hn Hc Ht]. by rewrite Hr in *.
    + intros (Hn & Hc & Ht). by apply spoken_clean_fixed.
Qed.

(** X15. A fenced block is not read aloud: for a text with one fenced
    block, no backtick before it and none inside it, narration speaks what
    it would speak for the text before the block followed by the text
    after it. *)
Theorem fenced_code_is_not_narrated (pre code suf : string)
    (Hpre : every (fun c => negb (bool_decide (c = backtick))) pre)
    (Hcode : every (fun c => negb (bool_decide (c = backtick))) code) :
  cleanSpeechText (pre +:+ "```" +:+ code +:+ "```" +:+ suf) = cleanSpeechText (pre +:+ suf).
Proof.
  unfold cleanSpeechText. do 3 f_equal.
  rewrite (remove_matches_block "```" "```" _ pre (code +:+ "```" +:+ suf) code suf);
    [|done|by apply (first_occurrence_clear backtick "``")
          |by apply (first_occurrence_clear backtick "``")].
  symmetry. by apply (remove_matches_clear_prefix backtick "``").
Qed.

(** X16. The transcript shows a message of the user as it is, and a
    message of the model trimmed when it has no JSON block. When the text
    after the first JSON block has no further block, the block the
    extractor reads its payload from is the one removed: what is shown is
    the text before the block followed by the text after it, trimmed. *)
Theorem display_hides_json_blocks :
  (forall t, display_text (mkMessage user t) = t) /\
  (forall t, (forall content, ~ first_json_block t content) ->
     display_text (mkMessage model t) = trim t) /\
  (forall t pre rest content suf,
     first_occurrence fence_open t pre rest ->
     first_occurrence fence_close rest content suf ->
     (forall c, ~ first_json_block suf c) ->
     regex_match t = Some content /\
     display_text (mkMessage model t) = trim (pre +:+ suf)).
Proof.
  split; [done|]. split.
  - intros t Hno%regex_match_None. unfold display_text. cbn.
    by rewrite remove_matches_no_match.
  - intros t pre rest content suf Hopen Hclose Hno%regex_match_None. split.
    + apply regex_match_Some. by exists pre, rest, suf.
    + unfold display_text. cbn.
      rewrite (remove_matches_block fence_open fence_close t pre rest content suf);
        [|done|done|done].
      by rewrite remove_matches_no_match.
Qed.

Lemma narrate_cases p messages loading v :
  support_detected p v ->
  narrate p messages loading v = Some v \/
  exists m,
    last messages = Some m /\ role m = model /\ loading = false /\
    voiceEnabled v = true /\ trim (text m) <> "" /\ trim (text m) <> spokenRef v /\
    narrate p messages loading v
      = Some (mkVoice true (voiceSupported v) (trim (text m))
                (if voiceSupported v then [utterance_of (trim (text m))]
                 else speaking v)).
Proof.
  intros Hs. unfold narrate.
  destruct (voiceEnabled v) eqn:He; [|by left].
  destruct loading; [by left|]. cbn [negb orb].
  case_bool_decide as Hm; [by left|].
  destruct (last messages) as [m|] eqn:Hl; [|by left].
  destruct (role m) eqn:Hr; [by left|].
  case_bool_decide as Ht; [by left|]. case_bool_decide as Hsp; [by left|]. cbn [orb].
  right. exists m. repeat split; try done.
  unfold speakText. cbn. destruct (voiceSupported v) eqn:Hsup; cbn; [|done].
  unfold support_detected in Hs. rewrite Hsup in Hs. symmetry in Hs.
  apply andb_true_iff in Hs as [-> ->]. done.
Qed.

Lemma narrate_spoken p messages loading m v :
  last messages = Some m -> spokenRef v = trim (text m) ->
  narrate p messages loading v = Some v.
Proof.
  intros Hl Hsp. unfold narrate.
  destruct (negb (voiceEnabled v) || loading || bool_decide (messages = [])); [done|].
  rewrite Hl. destruct (role m); [done|].
  rewrite <- Hsp, (bool_decide_eq_true_2 (spokenRef v = spokenRef v)) by done.
  by rewrite orb_true_r.
Qed.

Lemma narrate_speaks p messages m v :
  voiceEnabled v = true -> voiceSupported v = true -> support_detected p v ->
  last messages = Some m -> role m = model ->
  trim (text m) <> "" -> trim (text m) <> spokenRef v ->
  narrate p messages false v
    = Some (mkVoice true true (trim (text m)) [utterance_of (trim (text m))]).
Proof.
  intros He Hsup Hs Hl Hr Ht Hsp.
  unfold support_detected in Hs. rewrite Hsup in Hs. symmetry in Hs.
  apply andb_true_iff in Hs as [Hw Hspeech].
  assert (messages <> []) as Hne by (by intros ->).
  unfold narrate. rewrite He, Hl, Hr. cbn [negb orb].
  rewrite (bool_decide_eq_false_2 _ Hne), (bool_decide_eq_false_2 _ Ht),
    (bool_decide_eq_false_2 _ Hsp). cbn [orb].
  unfold speakText. cbn [voiceEnabled voiceSupported spokenRef speaking].
  by rewrite Hsup, Hw, Hspeech.
Qed.

Lemma voice_reachable_inv p v : voice_reachable p v -> voice_inv p v.
Proof.
  induction 1 as [|v Hr IH Hb|v messages loading v' Hr IH Hn].
  - unfold detect_voice, initialVoice.
    destruct (has_window p) eqn:Hw, (has_speechSynthesis p) eqn:Hs; cbn;
      split; unfold support_detected; cbn; rewrite ?Hw, ?Hs; try done; try lia;
      by intros u ?%elem_of_nil.
  - destruct IH as [Hs He Hq Hl Hu]. unfold audio_button_enabled in Hb.
    split; unfold support_detected, toggle_voice in *; cbn; try done.
    + intros Hf. congruence.
    + repeat case_match; cbn; lia.
    + intros u. repeat case_match; [by intros ?%elem_of_nil|apply Hu..].
  - destruct IH as [Hs He Hq Hl Hu].
    destruct (narrate_cases p messages loading v Hs)
      as [Hsame|(m & _ & _ & _ & Hen & _ & _ & Hsp)].
    + assert (v' = v) as -> by congruence. by split.
    + rewrite Hsp in Hn. injection Hn as <-. rewrite (He Hen).
      split; unfold support_detected in *; cbn; try done.
      * by rewrite <- Hs, (He Hen).
      * intros u ->%list_elem_of_singleton. by eexists.
Qed.

(** X17. In every narration state the component reaches, the narration
    effect returns without an error, keeps the two narration flags, and a
    second run on the same transcript changes nothing more. The run either
    leaves everything as it is, or narration is on, nothing is loading,
    the last message is one of the model whose trimmed text is not empty
    and was not the text spoken last: then that text is remembered and
    speech synthesis holds the one utterance made of it. *)
Theorem narration_speaks_once (p : SpeechPlatform) (messages : list Message)
    (loading : bool) (v : Voice) (Hreach : voice_reachable p v) :
  exists v',
    narrate p messages loading v = Some v' /\
    narrate p messages loading v' = Some v' /\
    voiceEnabled v' = voiceEnabled v /\ voiceSupported v' = voiceSupported v /\
    (v' = v \/
     exists m,
       last messages = Some m /\ role m = model /\ loading = false /\
       voiceEnabled v = true /\
       trim (text m) <> "" /\ trim (text m) <> spokenRef v /\
       spokenRef v' = trim (text m) /\
       speaking v' = [utterance_of (trim (text m))]).
Proof.
  destruct (voice_reachable_inv p v Hreach) as [Hsupport Hen _ _ _].
  destruct (narrate_cases p messages loading v Hsupport)
    as [Hsame|(m & Hl & Hr & Hload & He & Ht & Hsp & Hn)].
  - exists v. split; [done|]. split; [done|]. split; [done|]. split; [done|]. by left.
  - rewrite (Hen He) in Hn.
    eexists. split; [exact Hn|]. split; [by eapply narrate_spoken|].
    split; [by rewrite He|]. split; [by rewrite (Hen He)|].
    right. by exists m.
Qed.

(** X18. Switching audio on reads the latest message, and switching it
    off silences it. In a reachable narration state with audio off and the
    audio button enabled, when the transcript ends with a model message
    whose trimmed text is not empty and nothing is loading: after a click
    the narration effect speaks that text, also when it was spoken before;
    after a second click speech synthesis holds no utterance and the
    effect leaves it so. *)
Theorem audio_on_reads_latest_message (p : SpeechPlatform) (messages : list Message)
    (m : Message) (v : Voice)
    (Hreach : voice_reachable p v)
    (Hoff : voiceEnabled v = false)
    (Hbutton : audio_button_enabled v = true)
    (Hlast : last messages = Some m)
    (Hmodel : role m = model)
    (Htext : trim (text m) <> "") :
  let on := mkVoice true true (trim (text m)) [utterance_of (trim (text m))] in
  narrate p messages false (toggle_voice p v) = Some on /\
  speaking (toggle_voice p on) = [] /\
  narrate p messages false (toggle_voice p on) = Some (toggle_voice p on).
Proof.
  intros on. destruct (voice_reachable_inv p v Hreach) as [Hsupport _ _ _ _].
  unfold audio_button_enabled in Hbutton.
  pose proof Hsupport as Hs. unfold support_detected in Hs. rewrite Hbutton in Hs.
  symmetry in Hs. apply andb_true_iff in Hs as [Hw Hsp].
  split; [|split].
  - apply narrate_speaks; try done.
    + unfold toggle_voice. by rewrite Hoff.
    + unfold toggle_voice. cbn. rewrite Hoff. cbn. done.
  - unfold toggle_voice. cbn. by rewrite Hw, Hsp.
  - done.
Qed.

(** X19. In every narration state the component reaches, the audio button
    is enabled exactly when the browser has a window with speech synthesis.
    Without it audio is off, nothing is spoken and the narration effect
    does nothing. Speech synthesis never holds more than one utterance;
    an utterance it holds has a text [cleanSpeechText] has cleaned and the
    rate 1.25; and the narration effect never fails. *)
Theorem silent_without_speech_synthesis (p : SpeechPlatform) (v : Voice)
    (Hreach : voice_reachable p v) :
  audio_button_enabled v = has_window p && has_speechSynthesis p /\
  (audio_button_enabled v = false ->
     voiceEnabled v = false /\ speaking v = [] /\
     forall messages loading, narrate p messages loading v = Some v) /\
  length (speaking v) <= 1 /\
  (forall u, u ∈ speaking v ->
     exists t, utterance_text u = cleanSpeechText t /\
               utterance_rate u = QArith_base.Qmake 5 4) /\
  (forall messages loading, exists v', narrate p messages loading v = Some v').
Proof.
  destruct (voice_reachable_inv p v Hreach) as [Hs He Hq Hl Hu].
  unfold audio_button_enabled. split; [exact Hs|]. split; [|split; [done|split]].
  - intros Hoff.
    assert (voiceEnabled v = false) as Hen.
    { destruct (voiceEnabled v); [|done]. rewrite He in Hoff; done. }
    split; [done|]. split; [by apply Hq|].
    intros messages loading. unfold narrate. by rewrite Hen.
  - intros u (t & ->)%Hu. by exists t.
  - intros messages loading.
    destruct (narrate_cases p messages loading v Hs) as [Hn|(m & _ & _ & _ & _ & _ & _ & Hn)];
      eauto.
Qed.

(* ===================================================================== *)
(** ** The clock *)
(* ===================================================================== *)

(** X20. For a time the clock can show, from zero to [GAME_TIME_LIMIT]
    seconds, [formatTime] gives the minutes, at most ten, in decimal, a
    colon, and the seconds of the minute with two digits, the tens below
    six: four or five characters in all. *)
Theorem formatTime_two_digit_seconds (seconds : Z)
    (Hclock : (0 <= seconds <= GAME_TIME_LIMIT)%Z) :
  formatTime seconds
    = Number_toString (seconds / 60) +:+ ":" +:+
      String (digit (seconds mod 60 / 10)) (String (digit (seconds mod 60 mod 10)) "")
  /\ (0 <= seconds / 60 <= 10)%Z
  /\ (0 <= seconds mod 60 / 10 < 6)%Z /\ (0 <= seconds mod 60 mod 10 < 10)%Z
  /\ seconds = (60 * (seconds / 60) + 10 * (seconds mod 60 / 10) + seconds mod 60 mod 10)%Z
  /\ 4 <= String.length (formatTime seconds) <= 5.
Proof.
  unfold GAME_TIME_LIMIT in Hclock.
  assert (0 <= seconds / 60 <= 10)%Z as Hmins.
  { split; [apply Z.div_pos; lia|]. apply Z.div_le_upper_bound; lia. }
  assert (formatTime seconds
    = Number_toString (seconds / 60) +:+ ":" +:+
      String (digit (seconds mod 60 / 10))
        (String (digit (seconds mod 60 mod 10)) "")) as Hshape.
  { unfold formatTime. cbv zeta.
    rewrite Z.rem_mod_nonneg by lia.
    by rewrite padStart_seconds by (apply Z.mod_pos_bound; lia). }
  pose proof (Z.mod_pos_bound seconds 60 ltac:(lia)) as Hb.
  split; [done|]. split; [done|]. split; [|split; [|split]].
  - split; [apply Z.div_pos; lia | apply Z.div_lt_upper_bound; lia].
  - apply Z.mod_pos_bound. lia.
  - pose proof (Z.div_mod seconds 60 ltac:(lia)).
    pose proof (Z.div_mod (seconds mod 60) 10 ltac:(lia)). lia.
  - rewrite Hshape, string_app_length, string_app_cons, string_app_nil_l.
    pose proof (Number_toString_minutes _ Hmins). cbn [String.length]. lia.
Qed.

(** X21. Two different times the clock can show, from zero to
    [GAME_TIME_LIMIT] seconds, are shown with different texts. *)
Theorem formatTime_injective (a b : Z)
    (Ha : (0 <= a <= GAME_TIME_LIMIT)%Z) (Hb : (0 <= b <= GAME_TIME_LIMIT)%Z)
    (Hdiffer : a <> b) : formatTime a <> formatTime b.
Proof.
  intros Hsame. apply Hdiffer.
  unfold formatTime in Hsame. cbv zeta in Hsame.
  rewrite !Z.rem_mod_nonneg in Hsame by lia.
  pose proof (Z.mod_pos_bound a 60 ltac:(lia)) as Hma.
  pose proof (Z.mod_pos_bound b 60 ltac:(lia)) as Hmb.
  rewrite !padStart_seconds in Hsame by done.
  apply string_app_inj_tail in Hsame as [Hm Hs]; [|reflexivity].
  apply Number_toString_inj in Hm.
  rewrite !string_app_cons, !string_app_nil_l in Hs. injection Hs as Hh Hl.
  apply digit_inj in Hh;
    [|split; [apply Z.div_pos; lia | apply Z.div_lt_upper_bound; lia]..].
  apply digit_inj in Hl; [|apply Z.mod_pos_bound; lia..].
  pose proof (Z.div_mod a 60 ltac:(lia)).
  pose proof (Z.div_mod b 60 ltac:(lia)).
  pose proof (Z.div_mod (a mod 60) 10 ltac:(lia)).
  pose proof (Z.div_mod (b mod 60) 10 ltac:(lia)).
  lia.
Qed.

(* ===================================================================== *)
(** ** Scenarios on the reference platform *)
(* ===================================================================== *)

#[local] Existing Instance Reference.Z_number.
#[local] Existing Instance Reference.codec.
#[local] Existing Instance Reference.ascii_case.

Import Reference.

(** The payload of the specification's scenario. *)
Definition scenario_payload : string :=
  "{" +:+ quote "system" +:+ ":" +:+ quote "POWER" +:+ "," +:+
  quote "status" +:+ ":" +:+ quote "CRITICAL" +:+ "," +:+
  quote "parameters" +:+ ":{" +:+ quote "voltage" +:+ ":220}}".

(** The payload inside a fenced block, with narrative text around it. *)
Definition scenario_text : string :=
  "Switching to POWER." +:+ LF +:+ fence_open +:+ scenario_payload +:+ fence_close +:+
  LF +:+ "Awaiting command.".

Definition scenario_value : value :=
  VObject [("system", VString "POWER"); ("status", VString "CRITICAL");
           ("parameters", VObject [("voltage", VNumber 220%Z)])].

(** The payload is the content of the first fenced block of the text. *)
Lemma scenario_block : first_json_block scenario_text scenario_payload.
Proof. apply regex_match_Some. vm_compute. reflexivity. Qed.

(** The reference parser rejects the empty text. *)
Lemma reference_parse_empty : JSON_parse "" = None.
Proof. reflexivity. Qed.

(** C2 at the scenario text, on the reference platform: the extractor
    returns the object of the payload. *)
Lemma extractJson_first_block_witness :
  JSON_parse "" = None /\
  first_json_block scenario_text scenario_payload /\
  (extractJson scenario_text).1 = scenario_value.
Proof.
  split; [exact reference_parse_empty|]. split; [exact scenario_block|].
  destruct (extractJson_first_block reference_parse_empty scenario_text) as [Hfirst _].
  rewrite (Hfirst _ scenario_block). vm_compute. reflexivity.
Defined.

(** The scenario of the specification: the extractor returns the object and
    the applier then has [POWER] at [CRITICAL] in the map. *)
Example scenario_power :
  (extractJson scenario_text).1 = scenario_value /\
  pending scenario_value = [("POWER", "CRITICAL")] /\
  systemStatuses (flush (pending scenario_value) (initialApp fresh_browser)) !! "POWER"
    = Some (VString "CRITICAL").
Proof. vm_compute. repeat split. Qed.

(** A session the model has opened with its status listing. *)
Definition started : App :=
  startGame true (Streamed [Some "PROPULSION - STATUS: CRITICAL"] true)
            (initialApp fresh_browser).

(** C3 at the opened session: the timer restarted there reads zero after 600
    ticks, and 1000 ticks have called [endGame] once. *)
Lemma countdown_to_expiry_witness :
  timeLeft started = GAME_TIME_LIMIT /\
  timeLeft (ticks (nextInterval started) 600 (startTimer started)) = 0%Z /\
  endGameCalls (ticks (nextInterval started) 1000 (startTimer started)) = [false].
Proof.
  split; [reflexivity|].
  destruct (countdown_to_expiry started eq_refl) as (_ & _ & Hhigh & _).
  split.
  - apply (Hhigh 600). lia.
  - destruct (Hhigh 1000) as (_ & _ & _ & _ & _ & Hcalls); [lia|]. exact Hcalls.
Defined.

(** The opened session is a state of the component. *)
Lemma started_reachable : reachable fresh_browser started.
Proof. apply startGame_reachable. apply rtc_refl. Qed.

(** A closing message of the model, in mixed case. *)
Definition victory_text : string := "Systems stabilized - Mission Success.".







(** ** Where the code departs from the claims *)

(** An object with a [system], a [name] and a [status]. *)
Definition both_pairs : value :=
  VObject [("system", VString "A"); ("name", VString "B"); ("status", VString "OK")].

(** C1 as stated fails: the object has a [system] and a [status], and the
    walk records the ([name], [status]) pair all the same, which the
    stated rule, with its else, does not. *)
Lemma name_pair_recorded_beside_system_pair :
  ("B", "OK") ∈ pending both_pairs /\ ~ records_stated both_pairs ("B", "OK").
Proof.
  split.
  - vm_compute. right. left.
  - intros Hr. inversion Hr; subst.
    + match goal with Hk : JS_String (get "system" _) = Some "B" |- _ =>
        vm_compute in Hk; discriminate Hk end.
    + match goal with Hno : ~ _ |- _ => apply Hno; by vm_compute end.
    + match goal with Hg : get "systems" _ = VArray _ |- _ =>
        vm_compute in Hg; discriminate Hg end.
    + match goal with Hx : _ ∈ Object_values _, Ht : typeof_object _ = true |- _ =>
        cbn in Hx;
        repeat (apply elem_of_cons in Hx as [->|Hx]; [discriminate Ht|]);
        by apply elem_of_nil in Hx end.
Qed.



(** A payload that lists [POWER] twice, first critical, then resolved. *)
Definition status_history : value :=
  VArray [VObject [("system", VString "POWER"); ("status", VString "CRITICAL")];
          VObject [("system", VString "POWER"); ("status", VString "RESOLVED")]].

(** C5 as stated fails: the first object is in the payload with its pair,
    the walk returns, and the map does not hold [CRITICAL] under [POWER]. *)
Lemma earlier_status_overwritten :
  subvalue (VObject [("system", VString "POWER"); ("status", VString "CRITICAL")])
           status_history /\
  completes status_history /\
  systemStatuses (flush (pending status_history) (initialApp fresh_browser)) !! "POWER"
    <> Some (VString "CRITICAL").
Proof.
  split; [|split].
  - eapply subvalue_element; [left|constructor].
  - reflexivity.
  - vm_compute. discriminate.
Qed.



(** C7 as stated fails for missing storage: nothing is stored, the default
    map is returned, and no warning is on the console. *)
Lemma missing_storage_logs_nothing :
  item fresh_browser = None /\
  (loadStatuses fresh_browser).1 = defaultSystemStatuses /\
  ~ exists msg, console_warn msg ∈ console (loadStatuses fresh_browser).2.
Proof.
  split; [reflexivity|]. split; [reflexivity|].
  intros [msg Hin]. cbn in Hin. by apply elem_of_nil in Hin.
Qed.

(** The state of a first turn after one chunk, before its stream breaks. *)
Definition broken_first_turn : App :=
  (consume startGame_chunk "" [Some "PROPULSION"]
     (startGame_open (set_chatRef (Some chat_session)
                        (startGame_begin (initialApp fresh_browser))))).2.

(** C8 as stated fails for session start: the stream breaks after a chunk,
    and the transcript afterwards is not the transcript before with the
    error message appended; the streamed message is gone. *)
Lemma startGame_failure_replaces_transcript :
  messages broken_first_turn = [mkMessage model "PROPULSION"] /\
  startGame true (Streamed [Some "PROPULSION"] false) (initialApp fresh_browser)
    = finally (startGame_catch broken_first_turn) /\
  messages (finally (startGame_catch broken_first_turn))
    <> messages broken_first_turn ++
       [mkMessage model "ERROR: NEURAL LINK FAILURE. REBOOT REQUIRED."].
Proof.
  split; [reflexivity|]. split; [reflexivity|]. discriminate.
Qed.

(** The fields of an object whose [system] is the empty text. *)
Definition falsy_system : list (string * value) :=
  [("system", VString ""); ("name", VString "NAV"); ("status", VString "OK")].

(** C10 as stated fails: the [system] field is there and falsy, and the
    walk records the ([name], [status]) pair of the object. *)
Lemma falsy_system_still_records_name :
  has_key "system" falsy_system = true /\
  truthy (get "system" falsy_system) = false /\
  ("NAV", "OK") ∈ pending (VObject falsy_system).
Proof. split; [reflexivity|]. split; [reflexivity|]. vm_compute. left. Qed.

(** ** The further properties at the scenarios *)

(** X1 at the opened session. *)
Lemma timeLeft_bounded_witness :
  reachable fresh_browser started /\
  (0 <= timeLeft started <= GAME_TIME_LIMIT)%Z.
Proof.
  split; [exact started_reachable|].
  exact (proj1 (timeLeft_bounded fresh_browser started started_reachable)).
Defined.

(** The opened session after the user has typed a command and the model
    has answered with its closing message. *)
Definition won : App :=
  handleSend (Streamed [Some victory_text] true) (setInput "status" started).

Lemma won_reachable : reachable fresh_browser won.
Proof.
  apply handleSend_reachable.
  eapply rtc_r; [exact started_reachable|apply step_input].
Qed.

Lemma won_over : gameOver won = true.
Proof. vm_compute. reflexivity. Qed.

(** X2 at the session that is won: a further command is not sent. *)
Lemma game_over_blocks_sending_witness :
  reachable fresh_browser won /\ gameOver won = true /\
  submit_disabled won = true /\ handleSend Rejected won = won.
Proof.
  split; [exact won_reachable|]. split; [exact won_over|].
  destruct (game_over_blocks_sending fresh_browser won won_reachable) as [_ Hover].
  destruct (Hover won_over) as (_ & _ & Hbutton & Hsend).
  split; [exact Hbutton|apply Hsend].
Defined.

(** X3 at the opened session. *)
Lemma one_interval_at_most_witness :
  reachable fresh_browser started /\
  size (intervals started) <= 1 /\
  timerRef (startTimer started) = Some (nextInterval started).
Proof.
  split; [exact started_reachable|].
  destruct (one_interval_at_most fresh_browser started started_reachable)
    as (_ & Hsize & _ & Href).
  split; [exact Hsize|exact Href].
Defined.

(** X4 at the opened session: five late ticks after the game has ended. *)
Lemma clock_stops_at_game_end_witness :
  reachable fresh_browser started /\
  timeLeft (ticks 1%positive 5 (endGame false started)) = timeLeft started.
Proof.
  split; [exact started_reachable|].
  exact (proj2 (clock_stops_at_game_end fresh_browser started started_reachable
                  false 1%positive 5)).
Defined.

(** The opened session with a command typed. *)
Definition typed : App := setInput "switch to power" started.

(** The scenario text, arriving in three chunks, one of them without text. *)
Definition scenario_chunks : list (option string) :=
  [Some "Switching to POWER."; None;
   Some (LF +:+ fence_open +:+ scenario_payload +:+ fence_close +:+
         LF +:+ "Awaiting command.")].

Lemma scenario_chunks_text : accumulated scenario_chunks = scenario_text.
Proof. vm_compute. reflexivity. Qed.

Lemma scenario_applies : payload_applies (accumulated scenario_chunks).
Proof. intros _. vm_compute. reflexivity. Qed.

(** X6 at the opened session: the command and the reply enter the
    transcript, and [POWER] is at [CRITICAL]. *)
Lemma follow_up_turn_transcript_witness :
  can_send typed = true /\ chatRef typed <> None /\
  payload_applies (accumulated scenario_chunks) /\
  messages (handleSend (Streamed scenario_chunks true) typed)
    = messages typed ++ [mkMessage user "switch to power";
                         mkMessage model (accumulated scenario_chunks)] /\
  input (handleSend (Streamed scenario_chunks true) typed) = "".
Proof.
  assert (Hcan : can_send typed = true) by (vm_compute; reflexivity).
  assert (Hchat : chatRef typed <> None) by (vm_compute; discriminate).
  split; [exact Hcan|]. split; [exact Hchat|]. split; [exact scenario_applies|].
  destruct (follow_up_turn_transcript typed scenario_chunks Hcan Hchat scenario_applies)
    as (Hmessages & Hinput & _).
  split; [exact Hmessages|exact Hinput].
Defined.


(** The fresh browser after [POWER] has been reported as resolved. *)
Definition resolved : App := updateSystemStatus "power" "resolved" (initialApp fresh_browser).

(** X8 in the fresh browser with the reference codec. *)
Lemma statuses_survive_reboot_witness :
  has_defaults (systemStatuses (initialApp fresh_browser)) /\
  window_defined (world (initialApp fresh_browser)) = true /\
  storage_readable (world (initialApp fresh_browser)) = true /\
  JSON_parse "" = None /\
  storage_accepts (world (initialApp fresh_browser))
    (JSON_stringify (systemStatuses resolved)) = true /\
  JSON_parse (JSON_stringify (systemStatuses resolved))
    = Some (VObject (map_to_list (systemStatuses resolved))) /\
  assign (spread (VObject (map_to_list (systemStatuses resolved)))) ∅
    = systemStatuses resolved /\
  systemStatuses (startGame_begin resolved) = systemStatuses resolved.
Proof.
  assert (Hparse : JSON_parse (JSON_stringify (systemStatuses resolved))
                   = Some (VObject (map_to_list (systemStatuses resolved)))).
  { vm_compute. reflexivity. }
  assert (Hprops : assign (spread (VObject (map_to_list (systemStatuses resolved)))) ∅
                   = systemStatuses resolved).
  { vm_compute. reflexivity. }
  split; [apply initialApp_has_defaults|].
  split; [reflexivity|]. split; [reflexivity|].
  split; [exact reference_parse_empty|]. split; [reflexivity|].
  split; [exact Hparse|]. split; [exact Hprops|].
  exact (proj1 (statuses_survive_reboot (initialApp fresh_browser) "power" "resolved"
                  (VObject (map_to_list (systemStatuses resolved)))
                  (initialApp_has_defaults fresh_browser)
                  eq_refl eq_refl reference_parse_empty eq_refl Hparse Hprops)).
Defined.

(** Two updates in mixed case. *)
Definition mixed_case : list (string * string) :=
  [("Power", "Critical"); ("life support", "ok")].

(** X9 at the two updates, with the case mapping of the reference
    platform. *)
Lemma statuses_ignore_case_witness :
  Forall (fun kv => toUpperCase (toUpperCase kv.1) = toUpperCase kv.1 /\
                    toUpperCase (toUpperCase kv.2) = toUpperCase kv.2) mixed_case /\
  flush [("POWER", "CRITICAL"); ("LIFE SUPPORT", "OK")] (initialApp fresh_browser)
    = flush mixed_case (initialApp fresh_browser).
Proof.
  assert (Hupper : Forall (fun kv =>
            toUpperCase (toUpperCase kv.1) = toUpperCase kv.1 /\
            toUpperCase (toUpperCase kv.2) = toUpperCase kv.2) mixed_case).
  { repeat (apply Forall_cons; split; [split; vm_compute; reflexivity|]).
    apply Forall_nil. done. }
  split; [exact Hupper|].
  exact (proj1 (statuses_ignore_case mixed_case (initialApp fresh_browser) Hupper)).
Defined.

(** A status listing: an object whose [systems] holds two named systems. *)
Definition listing : list (string * value) :=
  [("systems",
    VArray [VObject [("name", VString "Navigation"); ("status", VString "ok")];
            VObject [("name", VString "Power"); ("status", VString "critical")]])].

Lemma listing_completes : completes (VObject listing).
Proof. vm_compute. reflexivity. Qed.

(** X10 at the status listing. *)
Lemma systems_pass_adds_nothing_witness :
  completes (VObject listing) /\
  systemStatuses (flush (pending (VObject listing)) (initialApp fresh_browser))
  = systemStatuses
      (flush ((record_pair "system" listing).1 ++ (record_pair "name" listing).1 ++
              (walk_values listing).1) (initialApp fresh_browser)).
Proof.
  split; [exact listing_completes|].
  exact (systems_pass_adds_nothing listing (initialApp fresh_browser) listing_completes).
Defined.

(** X15 at a message with a command in a fenced block. *)
Lemma fenced_code_is_not_narrated_witness :
  every (fun c => negb (bool_decide (c = backtick))) "Run " /\
  every (fun c => negb (bool_decide (c = backtick))) "ls -l" /\
  cleanSpeechText ("Run " +:+ "```" +:+ "ls -l" +:+ "```" +:+ " now")
    = cleanSpeechText ("Run " +:+ " now").
Proof.
  assert (Hpre : every (fun c => negb (bool_decide (c = backtick))) "Run ").
  { repeat (apply every_cons; split; [vm_compute; reflexivity|]). apply every_nil. }
  assert (Hcode : every (fun c => negb (bool_decide (c = backtick))) "ls -l").
  { repeat (apply every_cons; split; [vm_compute; reflexivity|]). apply every_nil. }
  split; [exact Hpre|]. split; [exact Hcode|].
  exact (fenced_code_is_not_narrated "Run " "ls -l" " now" Hpre Hcode).
Defined.

(** A browser with speech synthesis, and one without. *)
Definition speaking_browser : SpeechPlatform := mkSpeechPlatform true true.
Definition mute_browser : SpeechPlatform := mkSpeechPlatform true false.

(** The narration state after mount and one click on the audio button. *)
Definition audio_on : Voice :=
  toggle_voice speaking_browser (detect_voice speaking_browser initialVoice).

Lemma audio_on_reachable : voice_reachable speaking_browser audio_on.
Proof. apply voice_toggled; [apply voice_mounted|reflexivity]. Qed.

(** A transcript that ends with a message of the model. *)
Definition greeting : list Message :=
  [mkMessage user "status"; mkMessage model " All *systems* critical. "].

(** X17 with audio on: the greeting is spoken, and not a second time. *)
Lemma narration_speaks_once_witness :
  voice_reachable speaking_browser audio_on /\
  exists v',
    narrate speaking_browser greeting false audio_on = Some v' /\
    narrate speaking_browser greeting false v' = Some v'.
Proof.
  split; [exact audio_on_reachable|].
  destruct (narration_speaks_once speaking_browser greeting false audio_on
              audio_on_reachable) as (v' & Hfirst & Hsecond & _).
  exists v'. split; [exact Hfirst|exact Hsecond].
Defined.

(** X18 after mount: the click speaks the greeting. *)
Lemma audio_on_reads_latest_message_witness :
  voice_reachable speaking_browser (detect_voice speaking_browser initialVoice) /\
  voiceEnabled (detect_voice speaking_browser initialVoice) = false /\
  audio_button_enabled (detect_voice speaking_browser initialVoice) = true /\
  last greeting = Some (mkMessage model " All *systems* critical. ") /\
  trim " All *systems* critical. " <> "" /\
  narrate speaking_browser greeting false audio_on
    = Some (mkVoice true true "All *systems* critical."
              [utterance_of "All *systems* critical."]).
Proof.
  assert (Htext : trim (text (mkMessage model " All *systems* critical. ")) <> "")
    by (vm_compute; discriminate).
  split; [apply voice_mounted|]. split; [reflexivity|]. split; [reflexivity|].
  split; [reflexivity|]. split; [exact Htext|].
  exact (proj1 (audio_on_reads_latest_message speaking_browser greeting
                  (mkMessage model " All *systems* critical. ")
                  (detect_voice speaking_browser initialVoice)
                  (voice_mounted speaking_browser) eq_refl eq_refl eq_refl eq_refl Htext)).
Defined.

(** X19 in the browser without speech synthesis. *)
Lemma silent_without_speech_synthesis_witness :
  voice_reachable mute_browser (detect_voice mute_browser initialVoice) /\
  audio_button_enabled (detect_voice mute_browser initialVoice) = false /\
  narrate mute_browser greeting false (detect_voice mute_browser initialVoice)
    = Some (detect_voice mute_browser initialVoice).
Proof.
  split; [apply voice_mounted|]. split; [reflexivity|].
  destruct (silent_without_speech_synthesis mute_browser
              (detect_voice mute_browser initialVoice) (voice_mounted mute_browser))
    as (_ & Hmute & _).
  destruct (Hmute eq_refl) as (_ & _ & Hnarrate). apply Hnarrate.
Defined.

(** X20 at 65 seconds. *)
Lemma formatTime_two_digit_seconds_witness :
  (0 <= 65 <= GAME_TIME_LIMIT)%Z /\ formatTime 65 = "1:05".
Proof.
  assert (Hclock : (0 <= 65 <= GAME_TIME_LIMIT)%Z) by (unfold GAME_TIME_LIMIT; lia).
  split; [exact Hclock|].
  rewrite (proj1 (formatTime_two_digit_seconds 65 Hclock)). vm_compute. reflexivity.
Defined.

(** X21 at 59 and 60 seconds. *)
Lemma formatTime_injective_witness :
  (0 <= 59 <= GAME_TIME_LIMIT)%Z /\ (0 <= 60 <= GAME_TIME_LIMIT)%Z /\
  59%Z <> 60%Z /\ formatTime 59 <> formatTime 60.
Proof.
  assert (Ha : (0 <= 59 <= GAME_TIME_LIMIT)%Z) by (unfold GAME_TIME_LIMIT; lia).
  assert (Hb : (0 <= 60 <= GAME_TIME_LIMIT)%Z) by (unfold GAME_TIME_LIMIT; lia).
  assert (Hdiffer : 59%Z <> 60%Z) by lia.
  split; [exact Ha|]. split; [exact Hb|]. split; [exact Hdiffer|].
  exact (formatTime_injective 59 60 Ha Hb Hdiffer).
Defined.
